(** * DataTable: sort engine and selection tracker

    A shallow embedding of the [DataTable] React component (the function
    [DataTable], lines 309-551 of
    src/components/InputField/InputField.stories.tsx, where the text of
    DataTable.tsx is kept): the comparator and the memoised [sortedData],
    the header-click handler [handleSort], the selection handlers
    [handleRowSelect] and [handleSelectAll], and the derived flags
    [isAllSelected] and [isIndeterminate].

    JavaScript values, the relational operators and [Array.prototype.sort]
    belong to the host language; they are modelled in the modules [JS] and
    [Host] below. *)

From HB Require Import structures.
From Stdlib Require Import ZArith Lia Ascii String OrderedTypeEx.
From mathcomp Require Import ssreflect ssrfun ssrbool eqtype ssrnat seq path.

Set Implicit Arguments.
Unset Strict Implicit.
Unset Printing Implicit Defensive.

(** ** Equality structures for the base types *)

HB.instance Definition _ := hasDecEq.Build Z Z.eqb_spec.
HB.instance Definition _ := hasDecEq.Build ascii Ascii.eqb_spec.
HB.instance Definition _ := hasDecEq.Build string String.eqb_spec.

(** ** JavaScript values and the relational operators *)

Module JS.

(** The values a table cell or an accessor can hold.  Numbers are the
    integer-valued ones together with [NaN]; a string is a sequence of
    UTF-16 code units below 256 (Basic Latin and Latin-1 Supplement), one
    per character of [string], so that code-unit order is the order of
    [String.compare]; [VNode] is a React element returned by an accessor
    (an object, told apart by an identifier); [VHost] is an object of the
    host that a row inherits (a built-in function, or the prototype
    itself), given by the text its conversion to a primitive returns. *)
Inductive value :=
| VUndefined
| VNull
| VBool (b : bool)
| VNum (n : Z)
| VNaN
| VStr (s : string)
| VNode (id : nat)
| VHost (text : string).

Definition value_eqb (a b : value) : bool :=
  match a, b with
  | VUndefined, VUndefined => true
  | VNull, VNull => true
  | VBool x, VBool y => x == y
  | VNum x, VNum y => x == y
  | VNaN, VNaN => true
  | VStr s, VStr t => s == t
  | VNode i, VNode j => i == j
  | VHost s, VHost t => s == t
  | _, _ => false
  end.

Lemma value_eqP : Equality.axiom value_eqb.
Proof.
case=> [||x|x||s|i|g] [||y|y||t|j|h] /=; try by constructor.
- by apply: (iffP eqP) => [->|[]].
- by apply: (iffP eqP) => [->|[]].
- by apply: (iffP eqP) => [->|[]].
- by apply: (iffP eqP) => [->|[]].
- by apply: (iffP eqP) => [->|[]].
Qed.

HB.instance Definition _ := hasDecEq.Build value value_eqP.

(** [typeof v === "string"] *)
Definition is_string (v : value) : bool :=
  if v is VStr _ then true else false.

(** [String.prototype.toLowerCase] on code units below 256.  The letters
    with a lowercase form are A-Z (65-90) and the Latin-1 capitals
    U+00C0-U+00DE but the multiplication sign U+00D7; the lowercase form
    is 32 further in each case, and no mapping changes the length. *)
Definition lower_ascii (c : ascii) : ascii :=
  let n := nat_of_ascii c in
  if [|| (65 <= n) && (n <= 90), (192 <= n) && (n <= 214)
       | (216 <= n) && (n <= 222)]
  then ascii_of_nat (n + 32) else c.

Fixpoint toLowerCase (s : string) : string :=
  match s with
  | EmptyString => EmptyString
  | String c s' => String (lower_ascii c) (toLowerCase s')
  end.

(** [StringToNumber] on decimal integer literals: surrounding white space
    is dropped, the empty string is 0, an optional sign may precede the
    digits; any other text is taken as [NaN] ([None]).  This is the
    conversion of the language for the strings of [plain_string] below,
    and only for them: a literal with a fraction, an exponent, a radix
    prefix or [Infinity] denotes a number that is not [NaN], and an integer
    beyond 2^53 is rounded by the language.  The white space below 256 is
    TAB, LF, VT, FF, CR, SP and NBSP. *)
Definition is_ws (c : ascii) : bool :=
  nat_of_ascii c \in [:: 9; 10; 11; 12; 13; 32; 160].

Fixpoint drop_ws (cs : seq ascii) : seq ascii :=
  if cs is c :: cs' then (if is_ws c then drop_ws cs' else cs) else [::].

Definition trim (cs : seq ascii) : seq ascii :=
  rev (drop_ws (rev (drop_ws cs))).

Definition digit (c : ascii) : option Z :=
  let n := nat_of_ascii c in
  if (48 <= n) && (n <= 57) then Some (Z.of_nat (n - 48)) else None.

Fixpoint digits (acc : Z) (cs : seq ascii) : option Z :=
  match cs with
  | [::] => Some acc
  | c :: cs' =>
      if digit c is Some d then digits (10 * acc + d)%Z cs' else None
  end.

Definition unsigned_literal (cs : seq ascii) : option Z :=
  if cs is [::] then None else digits 0%Z cs.

Definition StringToNumber (s : string) : option Z :=
  match trim (list_ascii_of_string s) with
  | [::] => Some 0%Z
  | c :: cs =>
      if c == "+"%char then unsigned_literal cs
      else if c == "-"%char then omap Z.opp (unsigned_literal cs)
      else unsigned_literal (c :: cs)
  end.

(** A numeric literal starts, after the white space, with a digit, a
    sign, a dot or the I of [Infinity]. *)
Definition numeric_start (cs : seq ascii) : bool :=
  if cs is c :: _ then
    isSome (digit c) || (c \in [:: "+"; "-"; "."; "I"]%char)
  else false.

(** The integers every one of which is a number of the language. *)
Definition safe_integer (n : Z) : bool := (Z.abs n <=? 2 ^ 53)%Z.

(** The strings that [StringToNumber] above converts as the language
    does: the integer literals of a safe integer (the blank string among
    them), and the texts that cannot start a numeric literal, which are
    [NaN]. *)
Definition plain_string (s : string) : bool :=
  match StringToNumber s with
  | Some n => safe_integer n
  | None => ~~ numeric_start (trim (list_ascii_of_string s))
  end.

(** The values on which [ToNumber] and the relational operators below
    are those of the language.  The text of a built-in function is left
    to the implementation by the language. *)
Definition exact_value (v : value) : bool :=
  match v with
  | VNum n => safe_integer n
  | VStr s => plain_string s
  | VHost _ => false
  | _ => true
  end.

(** [ToPrimitive]: a React element is a plain object, whose default string
    conversion is the text below. *)
Definition ToPrimitive (v : value) : value :=
  match v with
  | VNode _ => VStr "[object Object]"
  | VHost text => VStr text
  | _ => v
  end.

(** [ToNumber]; [None] stands for [NaN]. *)
Definition ToNumber (v : value) : option Z :=
  match v with
  | VUndefined => None
  | VNull => Some 0%Z
  | VBool b => Some (if b then 1%Z else 0%Z)
  | VNum n => Some n
  | VNaN => None
  | VStr s => StringToNumber s
  | VNode _ => None
  | VHost _ => None
  end.

(** [a < b]: two strings are compared by code units, anything else as
    numbers, and a comparison with [NaN] is false. *)
Definition lt (a b : value) : bool :=
  match ToPrimitive a, ToPrimitive b with
  | VStr s, VStr t => String.ltb s t
  | pa, pb =>
      match ToNumber pa, ToNumber pb with
      | Some x, Some y => (x <? y)%Z
      | _, _ => false
      end
  end.

(** [a > b] is [b < a] with the operands evaluated left first; the operands
    here have no effects. *)
Definition gt (a b : value) : bool := lt b a.

End JS.

Import JS.

(** ** Rows and columns *)

(** A row is a record of named fields ([Record<string, any>]): an
    ordinary object, kept as the list of its own properties. *)
Definition Row := seq (string * value).

(** The names an ordinary object inherits from [Object.prototype]. *)
Definition Object_prototype : seq string :=
  [:: "constructor"; "toString"; "toLocaleString"; "valueOf";
      "hasOwnProperty"; "isPrototypeOf"; "propertyIsEnumerable";
      "__proto__"; "__defineGetter__"; "__defineSetter__";
      "__lookupGetter__"; "__lookupSetter__"]%string.

(** What is read under such a name: the prototype itself under
    [__proto__], the function [Object] under [constructor], and the
    built-in function of that name otherwise; the texts are those of
    [Object.prototype.toString] and [Function.prototype.toString]. *)
Definition inherited (k : string) : value :=
  if k == "__proto__"%string then VHost "[object Object]"
  else
    let name := if k == "constructor"%string then "Object"%string else k in
    VHost ("function " ++ name ++ "() { [native code] }").

(** [row[k]]: the value of the row's own property of that name; without
    one, what the row inherits under that name, and [undefined] when it
    inherits nothing. *)
Fixpoint field (row : Row) (k : string) : value :=
  match row with
  | [::] => if k \in Object_prototype then inherited k else VUndefined
  | (k', v) :: row' => if k' == k then v else field row' k
  end.

Inductive Align := AlignLeft | AlignCenter | AlignRight.

(** [interface Column<T>] (lines 287-294); the optional members are
    options. *)
Record Column := mkColumn {
  key : string;
  header : string;
  accessor : option (Row -> value);
  sortable : option bool;
  width : option string;
  align : option Align
}.

(** [type SortDirection = "asc" | "desc" | null]; [null] is [None]. *)
Inductive SortDirection := asc | desc.

Definition SortDirection_eqb (d e : SortDirection) : bool :=
  match d, e with asc, asc | desc, desc => true | _, _ => false end.

Lemma SortDirection_eqP : Equality.axiom SortDirection_eqb.
Proof. by case; case; constructor. Qed.

HB.instance Definition _ := hasDecEq.Build SortDirection SortDirection_eqP.

(** ** The comparator passed to [sort] (lines 327-352) *)

(** [columns.find((col) => col.key === sortColumn)] *)
Fixpoint find_column (columns : seq Column) (sortColumn : string)
  : option Column :=
  match columns with
  | [::] => None
  | col :: columns' =>
      if key col == sortColumn then Some col
      else find_column columns' sortColumn
  end.

(** The comparison value of a row: through the column's accessor when the
    column is found and has one, by direct field lookup otherwise. *)
Definition sortValue (columns : seq Column) (sortColumn : string)
  (a : Row) : value :=
  match obind accessor (find_column columns sortColumn) with
  | Some acc => acc a
  | None => field a sortColumn
  end.

(** Both values are lowercased when both are strings. *)
Definition normalize (aValue bValue : value) : value * value :=
  match aValue, bValue with
  | VStr s, VStr t => (VStr (toLowerCase s), VStr (toLowerCase t))
  | _, _ => (aValue, bValue)
  end.

Definition compareRows (columns : seq Column) (sortColumn : string)
  (sortDirection : SortDirection) (a b : Row) : Z :=
  let: (aValue, bValue) :=
    normalize (sortValue columns sortColumn a)
              (sortValue columns sortColumn b) in
  if JS.lt aValue bValue then (if sortDirection == asc then -1 else 1)%Z
  else if JS.gt aValue bValue then (if sortDirection == asc then 1 else -1)%Z
  else 0%Z.

(** The data whose comparison values are compared above as the language
    compares them: two strings by their code units, without conversion,
    other values after the conversion to numbers, which is that of the
    language on the values of [exact_value]. *)
Definition exact_pair (v w : value) : bool :=
  (is_string v && is_string w) || (exact_value v && exact_value w).

Definition exact_data (columns : seq Column) (sortColumn : string)
  (data : seq Row) : bool :=
  all (fun a =>
         all (fun b => exact_pair (sortValue columns sortColumn a)
                         (sortValue columns sortColumn b)) data) data.

(** ** The host's [Array.prototype.sort] *)

Module Host.

Section Comparator.

Variable T : eqType.

(** A comparator [(a, b) => number]; its result here is an integer. *)
Definition comparator := T -> T -> Z.

Variable cmp : comparator.

Definition before : rel T := fun a b => (cmp a b <? 0)%Z.
Definition after : rel T := fun a b => (0 <? cmp a b)%Z.
Definition tie : rel T := fun a b => cmp a b == 0%Z.
Definition lte : rel T := fun a b => (cmp a b <=? 0)%Z.

(** ECMAScript's consistent comparator, for the values of [s]: ties are
    reflexive, symmetric and transitive, and [before] and [after] are
    transitive. *)
Definition consistent (s : seq T) : bool :=
  all (fun a =>
    tie a a &&
    all (fun b =>
      (tie a b ==> tie b a) &&
      all (fun c =>
        [&& tie a b && tie b c ==> tie a c,
            before a b && before b c ==> before a c
          & after a b && after b c ==> after a c]) s) s) s.

End Comparator.

(** What the component relies on from the engine.  [sort] rearranges the
    elements it is given; with a consistent comparator the result is in
    order and elements that compare equal keep their order (ECMAScript 2019
    made the sort stable).  With any other comparator the order is left to
    the implementation. *)
Record SortEngine := mkSortEngine {
  Array_sort : forall T : eqType, comparator T -> seq T -> seq T;
  Array_sort_perm :
    forall (T : eqType) (cmp : comparator T) (s : seq T),
      perm_eq (Array_sort cmp s) s;
  Array_sort_sorted :
    forall (T : eqType) (cmp : comparator T) (s : seq T),
      consistent cmp s -> sorted (lte cmp) (Array_sort cmp s);
  Array_sort_stable :
    forall (T : eqType) (cmp : comparator T) (s : seq T),
      consistent cmp s ->
      forall x, x \in s ->
        [seq y <- Array_sort cmp s | tie cmp x y] = [seq y <- s | tie cmp x y]
}.

(** A merge sort driven by the sign of the comparator, as engines implement
    the method. *)
Definition merge_sort (T : eqType) (cmp : comparator T) (s : seq T) : seq T :=
  sort (lte cmp) s.

End Host.

Import Host.

(** The comparator in words: a three-way result, negated for a descending
    sort. *)
Definition three_way (c : comparison) : Z :=
  match c with Lt => -1 | Eq => 0 | Gt => 1 end.

Definition directed (d : SortDirection) (z : Z) : Z :=
  if d == asc then z else (- z)%Z.

(** [typeof v === "number"] with [v] not [NaN]. *)
Definition is_number (v : value) : bool :=
  if v is VNum _ then true else false.

(** The key a row is ordered by in a column of strings, and in a column of
    numbers. *)
Definition string_key (columns : seq Column) (k : string) (r : Row)
  : string :=
  if sortValue columns k r is VStr s then toLowerCase s else EmptyString.

Definition number_key (columns : seq Column) (k : string) (r : Row) : Z :=
  if sortValue columns k r is VNum n then n else 0%Z.

(** ** [Set<number>] *)

(** A JavaScript [Set] keeps its elements in insertion order and without
    duplicates; [Array.from] lists them in that order. *)
Module NumSet.

Definition t := seq nat.

Definition empty : t := [::].

Definition has (s : t) (i : nat) : bool := i \in s.

Definition add (s : t) (i : nat) : t := if i \in s then s else rcons s i.

Definition delete (s : t) (i : nat) : t := [seq j <- s | j != i].

Definition size (s : t) : nat := seq.size s.

(** [new Set(iterable)] *)
Definition of_array (a : seq nat) : t := foldl add empty a.

(** [Array.from(set)] *)
Definition to_array (s : t) : seq nat := s.

End NumSet.

(** ** Arrays by reference *)

(** [sort] works in place and returns its receiver, and [sortedData] may be
    the very array the caller passed as [data]; the store below keeps
    arrays by address to tell a copy from an alias. *)
Module Store.

Definition ref := nat.
Definition heap := seq (seq Row).

Definition deref (h : heap) (r : ref) : seq Row := nth [::] h r.

(** [[...a]]: a fresh array with the elements of [a]. *)
Definition spread (h : heap) (a : ref) : heap * ref :=
  (rcons h (deref h a), size h).

(** [a.sort(cmp)] *)
Definition sort_in_place (E : SortEngine) (cmp : comparator Row)
  (h : heap) (a : ref) : heap * ref :=
  (set_nth [::] h a (Array_sort E cmp (deref h a)), a).

End Store.

(** ** The component *)

(** The three [useState] cells. *)
Record State := mkState {
  selectedRows : NumSet.t;
  sortColumn : option string;
  sortDirection : option SortDirection
}.

Definition initial : State := mkState NumSet.empty None None.

(** The props the logic reads.  [onRowSelect] is optional in the source;
    the handlers below return the argument of [onRowSelect?.(...)]. *)
Record Props := mkProps {
  data : seq Row;
  columns : seq Column;
  loading : bool;
  selectable : bool
}.

Section DataTable.

Variable E : SortEngine.

(** [sortedData] (lines 324-353): the memoised display order.  An empty
    string is falsy, like [null]. *)
Definition sortedData (data : seq Row) (columns : seq Column)
  (sortColumn : option string) (sortDirection : option SortDirection)
  : seq Row :=
  match sortColumn, sortDirection with
  | Some k, Some d =>
      if k == EmptyString then data
      else Array_sort E (compareRows columns k d) data
  | _, _ => data
  end.

(** The same computation on arrays held in a store. *)
Definition sortedData_ref (h : Store.heap) (data : Store.ref)
  (columns : seq Column) (sortColumn : option string)
  (sortDirection : option SortDirection) : Store.heap * Store.ref :=
  match sortColumn, sortDirection with
  | Some k, Some d =>
      if k == EmptyString then (h, data)
      else
        let: (h1, copy) := Store.spread h data in
        Store.sort_in_place E (compareRows columns k d) h1 copy
  | _, _ => (h, data)
  end.

Definition view (p : Props) (st : State) : seq Row :=
  sortedData (data p) (columns p) (sortColumn st) (sortDirection st).

(** [handleSort] (lines 356-373) *)
Definition handleSort (st : State) (column : Column) : State :=
  if sortable column isn't Some true then st
  else
    let columnKey := key column in
    if sortColumn st == Some columnKey then
      if sortDirection st == Some asc then
        mkState (selectedRows st) (sortColumn st) (Some desc)
      else if sortDirection st == Some desc then
        mkState (selectedRows st) None None
      else st
    else mkState (selectedRows st) (Some columnKey) (Some asc).

(** [sortedData[i]]; [None] is [undefined]. *)
Definition lookup (rows : seq Row) (i : nat) : option Row :=
  nth None [seq Some r | r <- rows] i.

(** [handleRowSelect] (lines 376-390): the new state and the argument of
    the callback. *)
Definition handleRowSelect (sortedData : seq Row) (st : State)
  (index : nat) (checked : bool) : State * seq (option Row) :=
  let newSelectedRows :=
    if checked then NumSet.add (selectedRows st) index
    else NumSet.delete (selectedRows st) index in
  let selectedData :=
    [seq lookup sortedData i | i <- NumSet.to_array newSelectedRows] in
  (mkState newSelectedRows (sortColumn st) (sortDirection st), selectedData).

(** [handleSelectAll] (lines 393-402) *)
Definition handleSelectAll (sortedData : seq Row) (st : State)
  (checked : bool) : State * seq (option Row) :=
  if checked then
    let allIndices := NumSet.of_array (iota 0 (size sortedData)) in
    (mkState allIndices (sortColumn st) (sortDirection st),
     [seq Some r | r <- sortedData])
  else
    (mkState NumSet.empty (sortColumn st) (sortDirection st), [::]).

(** [isAllSelected] and [isIndeterminate] (lines 405-406), computed at each
    render. *)
Definition isAllSelected (sortedData : seq Row) (st : State) : bool :=
  (0 < NumSet.size (selectedRows st))
  && (NumSet.size (selectedRows st) == size sortedData).

Definition isIndeterminate (sortedData : seq Row) (st : State) : bool :=
  (0 < NumSet.size (selectedRows st))
  && (NumSet.size (selectedRows st) < size sortedData).

(** *** Events *)

(** What can happen to a mounted table: a click on the header of the
    [j]-th column, a change of a row checkbox or of the select-all
    checkbox, and a re-render by the parent with new [data]. *)
Inductive Event :=
| HeaderClick (j : nat)
| RowToggle (index : nat) (checked : bool)
| SelectAll (checked : bool)
| NewData (rows : seq Row).

(** The events that come from the user, as opposed to the parent. *)
Definition interaction (ev : Event) : bool :=
  if ev is NewData _ then false else true.

(** The table proper is rendered when the component is neither loading
    nor empty (lines 442-467); only then are there headers and
    checkboxes. *)
Definition table_rendered (p : Props) : bool :=
  ~~ loading p && (size (data p) != 0).

(** The events the rendered tree offers (lines 476-528): one header per
    column, one checkbox per row of the view and the select-all checkbox
    when [selectable]. *)
Definition offered (p : Props) (st : State) (ev : Event) : bool :=
  match ev with
  | HeaderClick j => table_rendered p && (j < size (columns p))
  | RowToggle index _ =>
      [&& table_rendered p, selectable p & index < size (view p st)]
  | SelectAll _ => table_rendered p && selectable p
  | NewData _ => true
  end.

Definition with_data (p : Props) (rows : seq Row) : Props :=
  mkProps rows (columns p) (loading p) (selectable p).

Definition no_column : Column :=
  mkColumn EmptyString EmptyString None None None None.

(** One event: the props and state afterwards, and the callback argument
    when the handler calls [onRowSelect]. *)
Definition step (p : Props) (st : State) (ev : Event)
  : Props * State * option (seq (option Row)) :=
  match ev with
  | HeaderClick j =>
      if j < size (columns p)
      then (p, handleSort st (nth no_column (columns p) j), None)
      else (p, st, None)
  | RowToggle index checked =>
      let: (st', out) := handleRowSelect (view p st) st index checked in
      (p, st', Some out)
  | SelectAll checked =>
      let: (st', out) := handleSelectAll (view p st) st checked in
      (p, st', Some out)
  | NewData rows => (with_data p rows, st, None)
  end.

(** A run of events. *)
Fixpoint run (p : Props) (st : State) (evs : seq Event) : Props * State :=
  match evs with
  | [::] => (p, st)
  | ev :: evs' =>
      let: (p', st', _) := step p st ev in run p' st' evs'
  end.

(** Every event of the run is offered when it happens. *)
Fixpoint all_offered (p : Props) (st : State) (evs : seq Event) : bool :=
  match evs with
  | [::] => true
  | ev :: evs' =>
      offered p st ev
      && (let: (p', st', _) := step p st ev in all_offered p' st' evs')
  end.

(** The selection holds positions of the current view only. *)
Definition selection_in_view (p : Props) (st : State) : bool :=
  all (fun i => i < size (view p st)) (selectedRows st).

(** A re-render with new data leaves the selected positions their
    meaning when each of them is still a position of the data, as it is
    when the data is not shorter; the other events change no data. *)
Definition keeps_positions (st : State) (ev : Event) : bool :=
  if ev is NewData rows then
    all (fun i => i < size rows) (selectedRows st)
  else true.

(** Every event of the run keeps the positions when it happens. *)
Fixpoint all_keep_positions (p : Props) (st : State) (evs : seq Event)
  : bool :=
  match evs with
  | [::] => true
  | ev :: evs' =>
      keeps_positions st ev
      && (let: (p', st', _) := step p st ev in
          all_keep_positions p' st' evs')
  end.

(** The sort column and direction are set together. *)
Definition sort_state_paired (st : State) : bool :=
  isSome (sortColumn st) == isSome (sortDirection st).

End DataTable.

(** ** The rest of the table's rendering logic *)

Inductive SortIcon := ChevronsUpDown | ChevronUp | ChevronDown.

(** [renderSortIcon] (lines 409-420); [None] is [null]. *)
Definition renderSortIcon (st : State) (column : Column) : option SortIcon :=
  if sortable column isn't Some true then None
  else
    let columnKey := key column in
    let isActive := sortColumn st == Some columnKey in
    if ~~ isActive then Some ChevronsUpDown
    else Some (if sortDirection st == Some asc then ChevronUp
               else ChevronDown).

(** [renderCellContent] (lines 423-428) *)
Definition renderCellContent (item : Row) (column : Column) : value :=
  if accessor column is Some acc then acc item else field item (key column).

(** The line under the table (lines 544-548): the two numbers of
    "n of m row(s) selected", when the line is rendered. *)
Definition selection_summary (selectable : bool) (sortedData : seq Row)
  (st : State) : option (nat * nat) :=
  if selectable && (0 < NumSet.size (selectedRows st))
  then Some (NumSet.size (selectedRows st), size sortedData)
  else None.

(** Values that the relational operators put neither before nor after
    anything of their kind: [undefined], [NaN] and React elements. *)
Definition unordered (v : value) : bool :=
  match v with
  | VUndefined | VNaN | VNode _ => true
  | _ => false
  end.

(** ** The input field *)

(** The [InputField] component (src/components/InputField/InputField.tsx),
    which the stories and the demo page render. *)
Module InputField.

Inductive Variant := filled | outlined | ghost.
Inductive Size := sm | md | lg.
Inductive InputType := text | password | email.

Definition InputType_eqb (a b : InputType) : bool :=
  match a, b with
  | text, text | password, password | email, email => true
  | _, _ => false
  end.

Lemma InputType_eqP : Equality.axiom InputType_eqb.
Proof. by case; case; constructor. Qed.

HB.instance Definition _ := hasDecEq.Build InputType InputType_eqP.

(** [InputFieldProps] (lines 7-23).  An absent string is [None]; the
    booleans and enumerations carry the defaults of lines 34-40 when
    absent.  [forwarded_ref] tells whether [ref] is an object whose
    [current] is the mounted input (line 61).  [onChange] is optional; the
    handlers below list the calls [onChange?.(e)] by the value of
    [e.target.value]. *)
Record Props := mkProps {
  value : option string;
  label : option string;
  placeholder : option string;
  helperText : option string;
  errorMessage : option string;
  disabled : bool;
  invalid : bool;
  loading : bool;
  variant : Variant;
  size : Size;
  type : InputType;
  showClearButton : bool;
  id : option string;
  forwarded_ref : bool
}.

(** The two [useState] cells (lines 47-48). *)
Record State := mkState {
  showPassword : bool;
  internalValue : string
}.

Definition initial : State := mkState false EmptyString.

(** A string in a boolean position: absent and empty are falsy. *)
Definition truthy (s : option string) : bool :=
  if s is Some s' then s' != EmptyString else false.

(** [a || b] on optional strings. *)
Definition or_else (a b : option string) : option string :=
  if truthy a then a else b.

(** Lines 50-51. *)
Definition isControlled (p : Props) : bool := isSome (value p).

Definition displayValue (p : Props) (st : State) : string :=
  if value p is Some v then v else internalValue st.

(** What a handler does besides setting state. *)
Inductive Effect :=
| OnChange (v : string)
| SetNativeValue (v : string)
| DispatchInput.

(** The texts reported through [onChange], in order. *)
Definition calls (effects : seq Effect) : seq string :=
  pmap (fun e => if e is OnChange v then Some v else None) effects.

(** [handleChange] (lines 53-58), on an event whose target holds [v]. *)
Definition handleChange (p : Props) (st : State) (v : string)
  : State * seq Effect :=
  (if ~~ isControlled p then mkState (showPassword st) v else st,
   [:: OnChange v]).

(** [handleClear] (lines 60-82).  When [ref] is an object that holds the
    input, the native setter empties the input and the [input] event is
    dispatched on it (lines 62-68); React hands that event to the
    [onChange] of the input, which is [handleChange], when the text of the
    input changed, that is when the field showed some text, and the target
    then holds the empty string.  After that the handler sets its own cell
    and calls [onChange] with the synthetic event (lines 70-81). *)
Definition handleClear (p : Props) (st : State) : State * seq Effect :=
  let: (st1, dispatched) :=
    if forwarded_ref p then
      let: (st', heard) :=
        if displayValue p st != EmptyString
        then handleChange p st EmptyString else (st, [::]) in
      (st', [:: SetNativeValue EmptyString; DispatchInput] ++ heard)
    else (st, [::]) in
  (if ~~ isControlled p then mkState (showPassword st1) EmptyString else st1,
   dispatched ++ [:: OnChange EmptyString]).

(** [togglePasswordVisibility] (lines 84-86) *)
Definition togglePasswordVisibility (st : State) : State :=
  mkState (~~ showPassword st) (internalValue st).

(** [inputId] (lines 88-90); [generated] is the identifier made from the
    clock and the random number. *)
Definition inputId (p : Props) (generated : string) : string :=
  if or_else (id p) (Some generated) is Some i then i else generated.

(** Line 92. *)
Definition isError (p : Props) : bool :=
  invalid p || truthy (errorMessage p).

(** What the component renders (lines 127-206), without the class names of
    variant and size. *)
Record View := mkView {
  label_for : option (string * string);
  input_id : string;
  input_type : InputType;
  input_value : string;
  input_disabled : bool;
  aria_invalid : bool;
  aria_describedby : option string;
  padded_right : bool;
  loader : bool;
  clear_button : bool;
  toggle_button : option (bool * string);
  description : option (string * string * bool)
}.

Definition render (p : Props) (st : State) (generated : string) : View :=
  let i := inputId p generated in
  let shown := displayValue p st in
  let described := truthy (or_else (helperText p) (errorMessage p)) in
  {| label_for :=
       if truthy (label p) then omap (fun l => (i, l)) (label p) else None;
     input_id := i;
     input_type :=
       if (type p == password) && showPassword st then text else type p;
     input_value := shown;
     input_disabled := disabled p || loading p;
     aria_invalid := isError p;
     aria_describedby :=
       if described then Some (i ++ "-description")%string else None;
     padded_right :=
       [|| type p == password,
           showClearButton p && (shown != EmptyString) | loading p];
     loader := loading p;
     clear_button :=
       [&& ~~ loading p, showClearButton p, shown != EmptyString
         & ~~ disabled p];
     toggle_button :=
       if [&& ~~ loading p, ~~ showClearButton p & type p == password]
       then Some (disabled p,
                  if showPassword st then "Hide password"%string
                  else "Show password"%string)
       else None;
     description :=
       if described
       then omap (fun t => ((i ++ "-description")%string, t, isError p))
              (or_else (errorMessage p) (helperText p))
       else None |}.

(** What the user can do to the rendered field: edit the text, press the
    clear button, press the visibility button. *)
Inductive Event :=
| Edit (v : string)
| ClickClear
| ClickToggle.

Definition offered (p : Props) (st : State) (ev : Event) : bool :=
  let v := render p st EmptyString in
  match ev with
  | Edit _ => ~~ input_disabled v
  | ClickClear => clear_button v
  | ClickToggle =>
      if toggle_button v is Some (off, _) then ~~ off else false
  end.

Definition step (p : Props) (st : State) (ev : Event)
  : State * seq Effect :=
  match ev with
  | Edit v => handleChange p st v
  | ClickClear => handleClear p st
  | ClickToggle => (togglePasswordVisibility st, [::])
  end.

Fixpoint run (p : Props) (st : State) (evs : seq Event) : State :=
  if evs is ev :: evs' then run p (step p st ev).1 evs' else st.

Fixpoint all_offered (p : Props) (st : State) (evs : seq Event) : bool :=
  if evs is ev :: evs' then
    offered p st ev && all_offered p (step p st ev).1 evs'
  else true.

(** The parent of the demo page (the fields of [Home] with
    [value={textValue}] and [onChange={(e) => setTextValue(e.target.value)}]):
    it keeps the text and passes it back as [value]. *)
Definition with_value (p : Props) (v : string) : Props :=
  mkProps (Some v) (label p) (placeholder p) (helperText p)
    (errorMessage p) (disabled p) (invalid p) (loading p) (variant p)
    (size p) (type p) (showClearButton p) (id p) (forwarded_ref p).

Definition echo (textValue : string) (effects : seq Effect) : string :=
  foldl (fun tv e => if e is OnChange v then v else tv) textValue effects.

(** One event at a field of the demo page: the field's state and the
    parent's text afterwards. *)
Definition echo_step (p : Props) (textValue : string) (st : State)
  (ev : Event) : State * string :=
  let: (st', effects) := step (with_value p textValue) st ev in
  (st', echo textValue effects).

End InputField.

(** ** Sample tables *)

Module Examples.

Definition plain_column (k : string) : Column :=
  mkColumn k k None (Some true) None None.

Definition fruit (name : string) : Row := [:: ("name"%string, VStr name)].

Definition fruit_columns : seq Column := [:: plain_column "name"].

(** Products; the fourth has no [stock] field. *)
Definition product (name : string) (stock : Z) : Row :=
  [:: ("name"%string, VStr name); ("stock"%string, VNum stock)].

Definition unstocked : Row := [:: ("name"%string, VStr "hinge")].

Definition products : seq Row :=
  [:: product "bolt" 1; product "nut" 4; product "screw" 2; unstocked;
      product "washer" 3].

Definition product_columns : seq Column :=
  [:: plain_column "name"; plain_column "stock"].

(** Users, some with names that differ only in case. *)
Definition user (id : Z) (name : string) : Row :=
  [:: ("id"%string, VNum id); ("name"%string, VStr name)].

Definition users : seq Row :=
  [:: user 1 "bob"; user 2 "Alice"; user 3 "BOB"; user 4 "alice"].

Definition user_columns : seq Column :=
  [:: plain_column "id"; plain_column "name";
      mkColumn "role" "Role" None (Some false) None None].

Definition role_column : Column :=
  mkColumn "role" "Role" None (Some false) None None.

Definition user_props : Props := mkProps users user_columns false true.

(** A session at the user table: sort by name, select the third row,
    select all, reverse the sort, clear the first row. *)
Definition session : seq Event :=
  [:: HeaderClick 1; RowToggle 2 true; SelectAll true; HeaderClick 1;
      RowToggle 0 false].

End Examples.

(** ** More samples *)

Module Samples.

(** The products that have a stock. *)
Definition stocked : seq Row :=
  [:: Examples.product "bolt" 1; Examples.product "nut" 4;
      Examples.product "screw" 2; Examples.product "washer" 3].

(** A column whose accessor renders an element, as the status columns of
    the stories do. *)
Definition badge_column : Column :=
  mkColumn "status" "Status" (Some (fun _ : Row => VNode 0)) (Some true)
    None None.

Definition badge_columns : seq Column :=
  [:: Examples.plain_column "name"; badge_column].

(** A password field with a clear button, and a plain text field. *)
Definition password_field : InputField.Props :=
  InputField.mkProps None (Some "Password"%string) None
    (Some "Click the eye icon"%string) None false false false
    InputField.outlined InputField.md InputField.password true None false.

Definition name_field : InputField.Props :=
  InputField.mkProps None (Some "Full Name"%string) None
    (Some "Your name"%string) (Some "Required"%string) false true false
    InputField.outlined InputField.md InputField.text true
    (Some "name"%string) false.

(** The text field, given a ref object by its parent. *)
Definition ref_field : InputField.Props :=
  InputField.mkProps None (Some "Full Name"%string) None
    (Some "Your name"%string) (Some "Required"%string) false true false
    InputField.outlined InputField.md InputField.text true
    (Some "name"%string) true.

Definition typing : seq InputField.Event :=
  [:: InputField.Edit "a"; InputField.ClickClear; InputField.Edit "b"].

(** Two names that differ in case only, with the first letter beyond
    ASCII: E with acute accent, capital (U+00C9) and small (U+00E9). *)
Definition ECOLE : string := String (ascii_of_nat 201) "COLE".
Definition ecole : string := String (ascii_of_nat 233) "cole".

(** A session in which the parent passes other data twice: first one row
    fewer, after the last row was unticked, then two rows more. *)
Definition reload : seq Event :=
  [:: SelectAll true; RowToggle 3 false;
      NewData (take 3 Examples.users); HeaderClick 0;
      NewData (Examples.users ++ [:: Examples.user 7 "eve"]);
      RowToggle 4 true].

End Samples.

(** * Properties *)

(** ** Consistent comparators *)

Section Consistency.

Variables (T : eqType) (cmp : comparator T).

Local Notation tie := (tie cmp).
Local Notation lte := (lte cmp).
Local Notation before := (before cmp).
Local Notation after := (after cmp).
Local Notation consistent := (consistent cmp).

Lemma consistentP (s : seq T) :
  consistent s ->
  forall a b c, a \in s -> b \in s -> c \in s ->
  [/\ cmp a a = 0,
      cmp a b = 0 -> cmp b a = 0,
      cmp a b = 0 -> cmp b c = 0 -> cmp a c = 0,
      cmp a b < 0 -> cmp b c < 0 -> cmp a c < 0
    & 0 < cmp a b -> 0 < cmp b c -> 0 < cmp a c]%Z.
Proof.
move=> /allP Hs a b c /Hs /andP[/eqP raa /allP Ha] /Ha /andP[sab /allP Hb].
move=> /Hb /and3P[teq tlt tgt]; split=> //.
- by move=> ab; apply/eqP; apply: (implyP sab); apply/eqP.
- move=> ab bc; apply/eqP; apply: (implyP teq).
  by rewrite /tie ab bc.
- move=> /Z.ltb_lt ab /Z.ltb_lt bc; apply/Z.ltb_lt; apply: (implyP tlt).
  by rewrite /before ab bc.
- move=> /Z.ltb_lt ab /Z.ltb_lt bc; apply/Z.ltb_lt; apply: (implyP tgt).
  by rewrite /after ab bc.
Qed.

Lemma consistent_flip (s : seq T) a b :
  consistent s -> a \in s -> b \in s ->
  ((cmp a b < 0 -> 0 < cmp b a) /\ (0 < cmp a b -> cmp b a < 0))%Z.
Proof.
move=> cs ia ib.
have [raa sab _ _ _] := consistentP cs ia ib ia.
have [rbb sba _ _ _] := consistentP cs ib ia ib.
have [_ _ _ lt_aba gt_aba] := consistentP cs ia ib ia.
by split; lia.
Qed.

Lemma lte_total (s : seq T) : consistent s -> {in s &, total lte}.
Proof.
move=> cs a b ia ib; rewrite /lte.
have [_ F] := consistent_flip cs ia ib.
apply/orP; case: (Z.leb_spec (cmp a b) 0) => [|/F ?]; first by left.
by right; apply/Z.leb_le; lia.
Qed.

Lemma lte_trans (s : seq T) : consistent s -> {in s & &, transitive lte}.
Proof.
move=> cs b a c ib ia ic; rewrite /lte => /Z.leb_le ab /Z.leb_le bc.
apply/Z.leb_le.
have [_ sab teq tlt _] := consistentP cs ia ib ic.
have [_ Fca] := consistent_flip cs ia ic.
have [_ scb _ tcab _] := consistentP cs ic ia ib.
have [_ sba _ tbca _] := consistentP cs ib ic ia.
have [_ sbc _ _ _] := consistentP cs ib ic ia.
by lia.
Qed.

Lemma lte_tie (s : seq T) a b :
  consistent s -> a \in s -> b \in s -> lte a b -> lte b a -> tie a b.
Proof.
move=> cs ia ib /Z.leb_le ab /Z.leb_le ba; apply/eqP.
have [F _] := consistent_flip cs ia ib.
by lia.
Qed.

Lemma tie_lte (a b : T) : tie a b -> lte a b.
Proof. by rewrite /tie /lte => /eqP ->. Qed.

Lemma consistent_perm (s1 s2 : seq T) :
  perm_eq s1 s2 -> consistent s1 = consistent s2.
Proof.
move=> p12; rewrite /consistent.
have E p : all p s1 = all p s2 by apply: perm_all.
rewrite E; apply: eq_all => a; congr (_ && _).
rewrite E; apply: eq_all => b; congr (_ && _).
by rewrite E.
Qed.

(** Ties among the values of [s] form a sorted list as they stand. *)
Lemma sorted_ties (s : seq T) x :
  consistent s -> x \in s -> sorted lte [seq y <- s | tie x y].
Proof.
move=> cs ix; apply: pairwise_sorted.
have: all (fun y => (y \in s) && tie x y) [seq y <- s | tie x y].
  by apply/allP => y; rewrite mem_filter andbC.
elim: [seq y <- s | tie x y] => //= y l IH /andP[/andP[iy /eqP xy] al].
rewrite IH // andbT; apply/allP => z /(allP al) /andP[iz /eqP xz].
have [_ syx _ _ _] := consistentP cs ix iy iz.
have [_ _ tyz _ _] := consistentP cs iy ix iz.
by apply: tie_lte; apply/eqP; apply: tyz => //; apply: syx.
Qed.

(** A sorted rearrangement that keeps ties in their order is unique. *)
Lemma stable_sorted_unique (s l1 l2 : seq T) :
  consistent s -> {subset l1 <= s} -> perm_eq l1 l2 ->
  sorted lte l1 -> sorted lte l2 ->
  (forall x, x \in l1 ->
     [seq y <- l1 | tie x y] = [seq y <- l2 | tie x y]) ->
  l1 = l2.
Proof.
move=> cs; elim: l1 l2 => [|a l1 IH] [|b l2] //.
- by move=> _ /perm_size.
- by move=> _ /perm_size.
move=> sub p12 so1 so2 Hf.
have sub2 : {subset b :: l2 <= s}.
  by move=> z; rewrite -(perm_mem p12); apply: sub.
have ia : a \in s by apply: sub; rewrite inE eqxx.
have ib : b \in s by apply: sub2; rewrite inE eqxx.
have [raa _ _ _ _] := consistentP cs ia ia ia.
have [rbb _ _ _ _] := consistentP cs ib ib ib.
have min1 : all (lte a) (a :: l1).
  rewrite /= {1}/lte raa /=.
  by apply: (order_path_min_in (lte_trans cs)) so1; apply/allP.
have min2 : all (lte b) (b :: l2).
  rewrite /= {1}/lte rbb /=.
  by apply: (order_path_min_in (lte_trans cs)) so2; apply/allP.
have ab : lte a b.
  by apply: (allP min1); rewrite (perm_mem p12) inE eqxx.
have ba : lte b a.
  by apply: (allP min2); rewrite -(perm_mem p12) inE eqxx.
have tab : tie a b by apply: (lte_tie cs).
have := Hf a; rewrite inE eqxx /= tab {1}/tie raa eqxx => /(_ isT) [eab _].
move: eab p12 so2 sub2 Hf => <- p12 so2 sub2 Hf {b ib rbb min2 ab ba tab}.
congr (_ :: _); apply: IH.
- by move=> z iz; apply: sub; rewrite inE iz orbT.
- by rewrite -(perm_cons a).
- exact: path_sorted so1.
- exact: path_sorted so2.
move=> x ix; have := Hf x; rewrite inE ix orbT /= => /(_ isT).
by case: (tie x a) => // [[]].
Qed.

End Consistency.

(** ** The merge sort is an engine *)

Lemma merge_sort_perm (T : eqType) (cmp : comparator T) (s : seq T) :
  perm_eq (merge_sort cmp s) s.
Proof. by rewrite /merge_sort perm_sort. Qed.

Lemma merge_sort_sorted (T : eqType) (cmp : comparator T) (s : seq T) :
  consistent cmp s -> sorted (lte cmp) (merge_sort cmp s).
Proof.
by move=> cs; apply: (sort_sorted_in (lte_total cs)); apply/allP.
Qed.

Lemma merge_sort_stable (T : eqType) (cmp : comparator T) (s : seq T) :
  consistent cmp s ->
  forall x, x \in s ->
    [seq y <- merge_sort cmp s | tie cmp x y] = [seq y <- s | tie cmp x y].
Proof.
move=> cs x ix; rewrite /merge_sort.
rewrite (filter_sort_in (lte_total cs) (lte_trans cs)); first by apply/allP.
apply: (sorted_sort_in (lte_trans cs)); last exact: sorted_ties.
by apply/allP => y; rewrite mem_filter => /andP[].
Qed.

Definition merge_engine : SortEngine :=
  mkSortEngine merge_sort_perm merge_sort_sorted merge_sort_stable.

(** On a consistent comparator every engine returns the same list. *)
Lemma engines_agree (E1 E2 : SortEngine) (T : eqType)
  (cmp : comparator T) (s : seq T) :
  consistent cmp s -> Array_sort E1 cmp s = Array_sort E2 cmp s.
Proof.
move=> cs; apply: (stable_sorted_unique cs).
- by move=> z; rewrite (perm_mem (Array_sort_perm E1 cmp s)).
- apply: perm_trans (Array_sort_perm E1 cmp s) _.
  by rewrite perm_sym; apply: Array_sort_perm.
- exact: Array_sort_sorted.
- exact: Array_sort_sorted.
move=> x; rewrite (perm_mem (Array_sort_perm E1 cmp s)) => ix.
by rewrite !Array_sort_stable.
Qed.


(** ** Comparators that follow a total order *)

Section Keyed.

Variables (T : eqType) (K : Type) (kcmp : K -> K -> comparison) (f : T -> K).
Variables (cmp : comparator T) (d : SortDirection).

Hypothesis kcmp_refl : forall x, kcmp x x = Eq.
Hypothesis kcmp_eq : forall x y, kcmp x y = Eq -> x = y.
Hypothesis kcmp_antisym : forall x y, kcmp y x = CompOpp (kcmp x y).
Hypothesis kcmp_trans :
  forall x y z, kcmp x y = Lt -> kcmp y z = Lt -> kcmp x z = Lt.

(** A comparator that returns the three-way result of a total order on
    keys, negated or not, is consistent. *)
Lemma keyed_consistent (s : seq T) :
  {in s &, forall a b, cmp a b = directed d (three_way (kcmp (f a) (f b)))} ->
  consistent cmp s.
Proof.
move=> H; apply/allP => a ia.
have taa : tie cmp a a by rewrite /tie H // kcmp_refl; case: (d).
rewrite taa /=; apply/allP => b ib.
have EX : kcmp (f a) (f b) = Eq -> f a = f b by apply: kcmp_eq.
have AX := kcmp_antisym (f a) (f b).
apply/andP; split.
  rewrite /tie !H // AX.
  by case: (kcmp (f a) (f b)); case: (d).
apply/allP => c ic.
have EY : kcmp (f b) (f c) = Eq -> f b = f c by apply: kcmp_eq.
have LT := @kcmp_trans (f a) (f b) (f c).
have GT := @kcmp_trans (f c) (f b) (f a).
have AY := kcmp_antisym (f b) (f c).
have AZ := kcmp_antisym (f a) (f c).
rewrite /tie /before /after !H //.
case X: (kcmp (f a) (f b)) EX AX LT GT => EX AX LT GT.
- rewrite (EX erefl); case: (kcmp (f b) (f c)); by case: (d).
- case Y: (kcmp (f b) (f c)) EY AY LT GT => EY AY LT GT.
  + by rewrite -(EY erefl) X; case: (d).
  + by rewrite (LT erefl erefl); case: (d).
  + by case: (kcmp (f a) (f c)); case: (d).
- case Y: (kcmp (f b) (f c)) EY AY LT GT => EY AY LT GT.
  + by rewrite -(EY erefl) X; case: (d).
  + by case: (kcmp (f a) (f c)); case: (d).
  + have := GT AY AX; rewrite AZ.
    by case: (kcmp (f a) (f c)) => //; case: (d).
Qed.

End Keyed.

Section ComparatorFacts.

Variables (columns : seq Column) (k : string) (d : SortDirection).

(** On two strings the comparator is the three-way comparison of the
    lowercased strings. *)
Lemma compareRows_strings (a b : Row) (s t : string) :
  sortValue columns k a = VStr s -> sortValue columns k b = VStr t ->
  compareRows columns k d a b
  = directed d (three_way (String.compare (toLowerCase s) (toLowerCase t))).
Proof.
rewrite /compareRows => -> -> /=; rewrite /JS.gt /JS.lt /= /String.ltb.
rewrite (String.compare_antisym (toLowerCase t)).
by case: (String.compare (toLowerCase s) (toLowerCase t)); case: (d).
Qed.

(** On two numbers it is the three-way comparison of the numbers. *)
Lemma compareRows_numbers (a b : Row) (x y : Z) :
  sortValue columns k a = VNum x -> sortValue columns k b = VNum y ->
  compareRows columns k d a b = directed d (three_way (x ?= y)%Z).
Proof.
rewrite /compareRows => -> -> /=; rewrite /JS.gt /JS.lt /=.
rewrite /Z.ltb (Z.compare_antisym x y).
by case: (x ?= y)%Z; case: (d).
Qed.

(** A column of strings is compared consistently. *)
Lemma strings_consistent (data : seq Row) :
  all (fun r => is_string (sortValue columns k r)) data ->
  consistent (compareRows columns k d) data.
Proof.
move=> /allP Hs.
apply: (@keyed_consistent _ _ String.compare (string_key columns k)).
- by move=> x; apply/String_as_OT.cmp_eq.
- exact: String.compare_eq_iff.
- by move=> x y; rewrite String.compare_antisym.
- move=> x y z /String_as_OT.cmp_lt xy /String_as_OT.cmp_lt yz.
  by apply/String_as_OT.cmp_lt; apply: String_as_OT.lt_trans xy yz.
move=> a b /Hs + /Hs; rewrite /string_key.
case Ea: (sortValue columns k a) => [| | | | |s| |] // _.
case Eb: (sortValue columns k b) => [| | | | |t| |] // _.
exact: compareRows_strings.
Qed.

(** So is a column of numbers. *)
Lemma numbers_consistent (data : seq Row) :
  all (fun r => is_number (sortValue columns k r)) data ->
  consistent (compareRows columns k d) data.
Proof.
move=> /allP Hs.
apply: (@keyed_consistent _ _ Z.compare (number_key columns k)).
- exact: Z.compare_refl.
- exact: Z.compare_eq.
- by move=> x y; rewrite Z.compare_antisym.
- move=> x y z /Z.compare_lt_iff xy /Z.compare_lt_iff yz.
  by apply/Z.compare_lt_iff; apply: Z.lt_trans xy yz.
move=> a b /Hs + /Hs; rewrite /number_key.
case Ea: (sortValue columns k a) => [| | |x| | | |] // _.
case Eb: (sortValue columns k b) => [| | |y| | | |] // _.
exact: compareRows_numbers.
Qed.

End ComparatorFacts.

(** ** Helper facts *)

Section Facts.

Variable E : SortEngine.

Lemma perm_sortedData data columns sc sd :
  perm_eq (sortedData E data columns sc sd) data.
Proof.
case: sc sd => [k|] [d|] //=; case: ifP => // _.
exact: Array_sort_perm.
Qed.

Lemma size_sortedData data columns sc sd :
  size (sortedData E data columns sc sd) = size data.
Proof. exact/perm_size/perm_sortedData. Qed.

Lemma size_view p st : size (view E p st) = size (data p).
Proof. exact: size_sortedData. Qed.

Lemma of_array_iota n : NumSet.of_array (iota 0 n) = iota 0 n.
Proof.
rewrite /NumSet.of_array /NumSet.empty -[RHS]/([::] ++ iota 0 n).
have: all (fun i => i < 0) (@nil nat) by [].
elim: n 0 [::] => [|n IH] m s lt_s /=; first by rewrite cats0.
have nin : m \notin s.
  by apply/negP => /(allP lt_s); rewrite ltnn.
rewrite /NumSet.add (negbTE nin) IH ?cat_rcons // all_rcons ltnSn /=.
by apply: sub_all lt_s => i /ltnW.
Qed.



Lemma handleSort_paired st column :
  sort_state_paired st -> sort_state_paired (handleSort st column).
Proof.
rewrite /handleSort; case: (sortable column) => [[]|] //.
case: st => sel [k|] [[]|] //=; by case: ifP.
Qed.

Lemma handleSort_selectedRows st column :
  selectedRows (handleSort st column) = selectedRows st.
Proof.
rewrite /handleSort; case: (sortable column) => [[]|] //.
by case: ifP => // _; case: ifP => // _; case: ifP.
Qed.

Lemma step_sort_state_paired p st ev :
  sort_state_paired st -> sort_state_paired (step E p st ev).1.2.
Proof.
case: ev => [j|index checked|checked|rows] //=.
- by case: ifP => // _; apply: handleSort_paired.
- by case: checked.
Qed.



Lemma uniq_add s i : uniq s -> uniq (NumSet.add s i).
Proof.
by rewrite /NumSet.add; case: ifP => // ni us; rewrite rcons_uniq ni.
Qed.

Lemma uniq_delete s i : uniq s -> uniq (NumSet.delete s i).
Proof. exact: filter_uniq. Qed.

Lemma all_add (P : pred nat) s i :
  all P (NumSet.add s i) = all P s && ((i \in s) || P i).
Proof.
rewrite /NumSet.add; case: ifP => [ii|_]; first by rewrite andbT.
by rewrite all_rcons andbC.
Qed.

Lemma all_delete (P : pred nat) s i : all P s -> all P (NumSet.delete s i).
Proof.
move=> Ps; rewrite /NumSet.delete all_filter.
by apply: sub_all Ps => j /= ->; rewrite implybT.
Qed.

Lemma step_selection_in_view p st ev :
  selection_in_view E p st -> interaction ev -> offered E p st ev ->
  selection_in_view E (step E p st ev).1.1 (step E p st ev).1.2.
Proof.
rewrite /selection_in_view; case: ev => [j|index checked|checked|rows] //=.
- move=> inv _ /andP[_ ->] /=; rewrite handleSort_selectedRows.
  by rewrite size_view -(size_view p st).
- move=> inv _ /and3P[_ _ lt_i]; rewrite -/(view E p st).
  case: checked; last exact: all_delete.
  by rewrite all_add inv lt_i orbT.
- move=> _ _ _; case: checked => //=; rewrite of_array_iota.
  by apply/allP => i; rewrite mem_iota add0n.
Qed.

Lemma step_keeps_in_view p st ev :
  selection_in_view E p st -> offered E p st ev -> keeps_positions st ev ->
  selection_in_view E (step E p st ev).1.1 (step E p st ev).1.2.
Proof.
case: ev => [j|index checked|checked|rows] inv off keep;
  try exact: step_selection_in_view.
apply/allP => i /(allP keep); rewrite /= size_view.
by [].
Qed.

Lemma run_keeps_in_view p st evs :
  selection_in_view E p st -> all_offered E p st evs ->
  all_keep_positions E p st evs ->
  selection_in_view E (run E p st evs).1 (run E p st evs).2.
Proof.
elim: evs p st => [|ev evs IH] p st //= inv /andP[off offs] /andP[keep].
have := step_keeps_in_view inv off keep; move: offs.
by case: (step E p st ev) => [[p' st'] out] /= offs inv'; apply: IH.
Qed.

(** The list that stands for the [Set] never holds a position twice. *)
Lemma step_uniq p st ev :
  uniq (selectedRows st) -> uniq (selectedRows (step E p st ev).1.2).
Proof.
case: ev => [j|index checked|checked|rows] //=.
- by case: ifP => // _; rewrite handleSort_selectedRows.
- by case: checked => us; [apply: uniq_add | apply: uniq_delete].
- by case: checked => //= _; rewrite of_array_iota iota_uniq.
Qed.

Lemma run_uniq p evs : uniq (selectedRows (run E p initial evs).2).
Proof.
have: uniq (selectedRows initial) by [].
elim: evs p initial => [|ev evs IH] p st us //=.
have := step_uniq p ev us.
by case: (step E p st ev) => [[p' st'] out] /=; apply: IH.
Qed.

(** ** The claims *)


(** C2. The header-click transition table.  For a sortable column: no sort
    goes to (column, asc), (column, asc) to (column, desc), (column, desc)
    to no sort, and any other active column to (column, asc); three clicks
    from no sort come back to no sort, through asc then desc, and the view
    is again the data in its original order.  A click on a column that is
    not sortable leaves the state, and so the view, as they were. *)
Theorem handleSort_transitions (column : Column) (sel : NumSet.t) :
  let k := key column in
  (sortable column = Some true ->
     [/\ handleSort (mkState sel None None) column
           = mkState sel (Some k) (Some asc),
         handleSort (mkState sel (Some k) (Some asc)) column
           = mkState sel (Some k) (Some desc),
         handleSort (mkState sel (Some k) (Some desc)) column
           = mkState sel None None,
         forall k' d, k' != k ->
           handleSort (mkState sel (Some k') d) column
             = mkState sel (Some k) (Some asc)
       & forall p,
           let st0 := mkState sel None None in
           let st1 := handleSort st0 column in
           let st2 := handleSort st1 column in
           let st3 := handleSort st2 column in
           [/\ sortDirection st1 = Some asc, sortDirection st2 = Some desc,
               st3 = st0 & view E p st3 = data p]])
  /\ (sortable column <> Some true ->
      forall p st,
        handleSort st column = st
        /\ view E p (handleSort st column) = view E p st).
Proof.
move=> k; split=> [so|nso].
  have cycle2 : handleSort (mkState sel (Some k) (Some asc)) column
                = mkState sel (Some k) (Some desc).
    by rewrite /handleSort so /= eqxx.
  have cycle3 : handleSort (mkState sel (Some k) (Some desc)) column
                = mkState sel None None.
    by rewrite /handleSort so /= eqxx.
  have cycle1 : handleSort (mkState sel None None) column
                = mkState sel (Some k) (Some asc).
    by rewrite /handleSort so.
  split=> //.
  - move=> k' d ne; rewrite /handleSort so /=.
    by rewrite (_ : (Some k' == Some k) = false) //; apply/negbTE.
  - by move=> p /=; rewrite cycle1 cycle2 cycle3.
move=> p st; suff -> : handleSort st column = st by [].
by rewrite /handleSort; case: (sortable column) nso => [[]|].
Qed.

(** C3, for the events that keep the selected positions within the
    data.  From a state where every selected position is a position of the
    view, as the initial state is, the same holds after every run of
    header clicks, checkbox changes of rendered rows, select-all changes
    and data changes that leave each selected position below the new
    length.  A data change that is not shorter is such a change, and a
    data change keeps the invariant exactly when it is one. *)
Theorem selection_in_view_invariant (p : Props) (st : State)
  (evs : seq Event) :
  selection_in_view E p st ->
  all_offered E p st evs -> all_keep_positions E p st evs ->
  [/\ selection_in_view E (run E p st evs).1 (run E p st evs).2,
      forall rows, size (data p) <= size rows ->
        keeps_positions st (NewData rows)
    & forall rows,
        selection_in_view E (step E p st (NewData rows)).1.1
          (step E p st (NewData rows)).1.2
        = keeps_positions st (NewData rows)].
Proof.
move=> inv off keep; split; first exact: run_keeps_in_view.
  move=> rows le; apply/allP => i /(allP inv).
  by rewrite size_view => lt_i; apply: leq_trans le.
by move=> rows; rewrite /selection_in_view /= size_view.
Qed.

(** C4.  The select-all checkbox is rendered with the table, and the
    table is rendered when there are rows.  Whenever the checkbox is
    offered, [handleSelectAll] with [true] selects exactly the positions of
    the view, [isAllSelected] holds at the next render, and the callback
    receives the rows of the view, all of them and in order; with [false]
    the selection becomes empty and the callback receives the empty
    list. *)
Theorem handleSelectAll_consistent (p : Props) (st : State) :
  let rows := view E p st in
  (offered E p st (SelectAll true) ->
   let: (st', out) := handleSelectAll rows st true in
   [/\ forall i, NumSet.has (selectedRows st') i = (i < size rows),
       NumSet.size (selectedRows st') = size rows,
       view E p st' = rows,
       isAllSelected (view E p st') st' = true
     & out = [seq Some r | r <- rows]])
  /\ (let: (st', out) := handleSelectAll rows st false in
      selectedRows st' = NumSet.empty /\ out = [::]).
Proof.
move=> rows; split=> // /andP[/andP[_ ne] _] /=.
have pos : 0 < size rows by rewrite size_view lt0n.
rewrite /isAllSelected /= of_array_iota /NumSet.size size_iota.
split=> //; last by rewrite pos eqxx.
by move=> i; rewrite /NumSet.has mem_iota.
Qed.


(** C6. [isAllSelected] is: the selection is not empty and has as many
    positions as the view has rows; [isIndeterminate] (the tri-state hint)
    is: not empty and strictly fewer.  With one row of five selected the
    hint is on and [isAllSelected] is off. *)
Theorem selection_flags (rows : seq Row) (st : State) :
  [/\ isAllSelected rows st
        = (selectedRows st != NumSet.empty)
          && (NumSet.size (selectedRows st) == size rows),
      isIndeterminate rows st
        = (selectedRows st != NumSet.empty)
          && (NumSet.size (selectedRows st) < size rows)
    & size rows = 5 ->
      forall index, index < 5 ->
        let st1 := (handleRowSelect rows initial index true).1 in
        [/\ NumSet.size (selectedRows st1) = 1,
            isIndeterminate rows st1 = true
          & isAllSelected rows st1 = false]].
Proof.
have ne (s : NumSet.t) : (0 < NumSet.size s) = (s != NumSet.empty).
  by case: s.
split; rewrite /isAllSelected /isIndeterminate ?ne // => sz index _ /=.
by rewrite sz.
Qed.

(** C7. When the comparison values of two rows are both strings, the
    comparator is the three-way comparison of the lowercased strings (negated
    when descending), so strings that differ only in case tie; sorting the
    names banana, Apple, cherry in ascending order gives Apple, banana,
    cherry. *)
Theorem compareRows_case_insensitive :
  (forall columns k d (a b : Row) (s t : string),
     sortValue columns k a = VStr s -> sortValue columns k b = VStr t ->
     compareRows columns k d a b
     = directed d
         (three_way (String.compare (toLowerCase s) (toLowerCase t)))
     /\ (toLowerCase s = toLowerCase t -> compareRows columns k d a b = 0%Z))
  /\ sortedData E
       [:: Examples.fruit "banana"; Examples.fruit "Apple";
           Examples.fruit "cherry"]
       Examples.fruit_columns (Some "name"%string) (Some asc)
     = [:: Examples.fruit "Apple"; Examples.fruit "banana";
           Examples.fruit "cherry"].
Proof.
split=> [columns k d a b s t Ea Eb|].
  rewrite (compareRows_strings d Ea Eb); split=> // ->.
  have := proj2 (String_as_OT.cmp_eq (toLowerCase t) (toLowerCase t)) erefl.
  by rewrite /String_as_OT.cmp => ->; case: (d).
rewrite /sortedData /= (engines_agree E merge_engine) //.
Qed.

(** C8. The sort column and the sort direction are present together or
    absent together: in the initial state, after a click on any header
    from a state where it holds, and so after any run of events from the
    initial state. *)
Theorem sort_state_paired_invariant :
  [/\ sort_state_paired initial,
      forall st column,
        sort_state_paired st -> sort_state_paired (handleSort st column)
    & forall p evs, sort_state_paired (run E p initial evs).2].
Proof.
split=> // [st column|p evs]; first exact: handleSort_paired.
have: sort_state_paired initial by [].
elim: evs p initial => [|ev evs IH] p st inv //=.
case Es: (step E p st ev) => [[p' st'] out].
by apply: IH; have := step_sort_state_paired p ev inv; rewrite Es.
Qed.

(** C9. When the sort column is absent, [sortedData] is the input data
    itself, rows and order untouched; on arrays held by reference it is the
    caller's own array and the store is left as it was. *)
Theorem sortedData_without_column (data : seq Row) (columns : seq Column)
  (sd : option SortDirection) (h : Store.heap) (a : Store.ref) :
  sortedData E data columns None sd = data
  /\ sortedData_ref E h a columns None sd = (h, a).
Proof. by []. Qed.

(** C10. Whatever the sort state, the view is a rearrangement of the data:
    same length, every row as many times as in the data.  When the data is
    an array in the store, the result holds the view and every array that
    was in the store, the caller's included, is as it was. *)
Theorem sortedData_permutation (data : seq Row) (columns : seq Column)
  (sc : option string) (sd : option SortDirection) :
  let rows := sortedData E data columns sc sd in
  [/\ perm_eq rows data,
      size rows = size data,
      forall r, count_mem r rows = count_mem r data
    & forall (h : Store.heap) (a : Store.ref),
        a < size h -> Store.deref h a = data ->
        let: (h', res) := sortedData_ref E h a columns sc sd in
        Store.deref h' res = rows
        /\ forall b, b < size h -> Store.deref h' b = Store.deref h b].
Proof.
move=> rows; have prm := perm_sortedData data columns sc sd.
split=> //; first exact: perm_size.
  by move=> r; apply/permP.
move=> h a lt_a Ed; rewrite /rows -Ed /sortedData /sortedData_ref.
case: sc sd {rows prm Ed} => [k|] [d|] //; case: ifP => // _.
rewrite /Store.spread /Store.sort_in_place /Store.deref /=.
rewrite nth_set_nth /= eqxx nth_rcons ltnn eqxx; split=> // b lt_b.
by rewrite nth_set_nth /= (ltn_eqF lt_b) nth_rcons lt_b.
Qed.

End Facts.

(** ** The claims on the sample tables *)

(** On the product table sorted by stock no arrangement is both in order
    and faithful to the ties: the row without stock ties with every row, so
    keeping the ties in place keeps stock 4 ahead of stock 3. *)
Lemma products_order_or_ties (E : SortEngine) :
  ~~ [&& pairwise (lte (compareRows Examples.product_columns "stock" asc))
           (sortedData E Examples.products Examples.product_columns
              (Some "stock"%string) (Some asc)),
         [seq r <- sortedData E Examples.products Examples.product_columns
                     (Some "stock"%string) (Some asc)
         | pred2 (Examples.product "nut" 4) Examples.unstocked r]
         == [:: Examples.product "nut" 4; Examples.unstocked]
       & [seq r <- sortedData E Examples.products Examples.product_columns
                     (Some "stock"%string) (Some asc)
         | pred2 Examples.unstocked (Examples.product "washer" 3) r]
         == [:: Examples.unstocked; Examples.product "washer" 3]].
Proof.
have: sortedData E Examples.products Examples.product_columns
        (Some "stock"%string) (Some asc) \in permutations Examples.products.
  by rewrite mem_permutations perm_sortedData.
move: (sortedData _ _ _ _ _) => rows; apply/allP: rows.
by vm_compute.
Qed.



(** Three clicks on the name header, and a click on the role header, which
    is not sortable. *)
Lemma handleSort_transitions_witness :
  [/\ sortable (Examples.plain_column "name") = Some true,
      handleSort
        (handleSort (handleSort initial (Examples.plain_column "name"))
           (Examples.plain_column "name"))
        (Examples.plain_column "name") = initial,
      sortable Examples.role_column <> Some true
    & handleSort (mkState [:: 1] (Some "name"%string) (Some asc))
        Examples.role_column
      = mkState [:: 1] (Some "name"%string) (Some asc)].
Proof.
have [H1 _] :=
  handleSort_transitions merge_engine (Examples.plain_column "name")
    NumSet.empty.
have [_ H2] :=
  handleSort_transitions merge_engine Examples.role_column NumSet.empty.
have so : sortable (Examples.plain_column "name") = Some true by [].
have nso : sortable Examples.role_column <> Some true by [].
have [_ _ _ _ H3] := H1 so.
have [_ _ H4 _] := H3 Examples.user_props.
have [H5 _] :=
  H2 nso Examples.user_props (mkState [:: 1] (Some "name"%string) (Some asc)).
split; [exact: so | exact: H4 | exact: nso | exact: H5].
Defined.

(** C3 as stated fails when the parent passes shorter data: the selection
    made on four rows is kept and holds positions beyond the one row
    left. *)
Lemma selection_outlives_data :
  [/\ selection_in_view merge_engine Examples.user_props initial,
      all_offered merge_engine Examples.user_props initial
        [:: SelectAll true; NewData [:: Examples.user 1 "bob"]],
      selectedRows
        (run merge_engine Examples.user_props initial
           [:: SelectAll true; NewData [:: Examples.user 1 "bob"]]).2
      = [:: 0; 1; 2; 3],
      view merge_engine
        (run merge_engine Examples.user_props initial
           [:: SelectAll true; NewData [:: Examples.user 1 "bob"]]).1
        (run merge_engine Examples.user_props initial
           [:: SelectAll true; NewData [:: Examples.user 1 "bob"]]).2
      = [:: Examples.user 1 "bob"]
    & selection_in_view merge_engine
        (run merge_engine Examples.user_props initial
           [:: SelectAll true; NewData [:: Examples.user 1 "bob"]]).1
        (run merge_engine Examples.user_props initial
           [:: SelectAll true; NewData [:: Examples.user 1 "bob"]]).2
      = false].
Proof. by split; vm_compute. Qed.

(** A session with two data changes keeps the selection within the
    view. *)
Lemma selection_in_view_invariant_witness :
  [/\ selection_in_view merge_engine Examples.user_props initial,
      all_offered merge_engine Examples.user_props initial Samples.reload,
      all_keep_positions merge_engine Examples.user_props initial
        Samples.reload
    & selection_in_view merge_engine
        (run merge_engine Examples.user_props initial Samples.reload).1
        (run merge_engine Examples.user_props initial Samples.reload).2].
Proof.
have inv : selection_in_view merge_engine Examples.user_props initial by [].
have off : all_offered merge_engine Examples.user_props initial
             Samples.reload by vm_compute.
have keep : all_keep_positions merge_engine Examples.user_props initial
              Samples.reload by vm_compute.
split; [exact: inv | exact: off | exact: keep |].
by have [H _ _] := selection_in_view_invariant inv off keep; exact: H.
Defined.

(** Select-all on the user table. *)
Lemma handleSelectAll_consistent_witness :
  offered merge_engine Examples.user_props initial (SelectAll true)
  /\ isAllSelected
       (view merge_engine Examples.user_props
          (handleSelectAll (view merge_engine Examples.user_props initial)
             initial true).1)
       (handleSelectAll (view merge_engine Examples.user_props initial)
          initial true).1 = true.
Proof.
have off : offered merge_engine Examples.user_props initial
             (SelectAll true) by [].
have [H _] :=
  handleSelectAll_consistent merge_engine Examples.user_props initial.
have [_ _ _ H1 _] := H off.
split; [exact: off | exact: H1].
Defined.



(** One product of five selected. *)
Lemma selection_flags_witness :
  [/\ size Examples.products = 5, 3 < 5
    & isIndeterminate Examples.products
        (handleRowSelect Examples.products initial 3 true).1 = true
      /\ isAllSelected Examples.products
           (handleRowSelect Examples.products initial 3 true).1 = false].
Proof.
have [_ _ H] := selection_flags Examples.products initial.
have [_ H1 H2] := H erefl 3 isT.
split; [reflexivity | reflexivity | split; [exact: H1 | exact: H2]].
Defined.

(** Two spellings of one name tie, accented capital included. *)
Lemma compareRows_case_insensitive_witness :
  [/\ sortValue Examples.fruit_columns "name"
        (Examples.fruit Samples.ECOLE) = VStr Samples.ECOLE,
      sortValue Examples.fruit_columns "name"
        (Examples.fruit Samples.ecole) = VStr Samples.ecole
    & compareRows Examples.fruit_columns "name" desc
        (Examples.fruit Samples.ECOLE) (Examples.fruit Samples.ecole)
      = 0%Z].
Proof.
have [H _] := compareRows_case_insensitive merge_engine.
have Ea : sortValue Examples.fruit_columns "name"
            (Examples.fruit Samples.ECOLE) = VStr Samples.ECOLE by [].
have Eb : sortValue Examples.fruit_columns "name"
            (Examples.fruit Samples.ecole) = VStr Samples.ecole by [].
have [_ H1] := H Examples.fruit_columns _ desc _ _ _ _ Ea Eb.
split; [exact: Ea | exact: Eb | exact: (H1 erefl)].
Defined.

(** A click on the name header from (name, desc). *)
Lemma sort_state_paired_invariant_witness :
  sort_state_paired (mkState [:: 2] (Some "name"%string) (Some desc))
  /\ sort_state_paired
       (handleSort (mkState [:: 2] (Some "name"%string) (Some desc))
          (Examples.plain_column "name")).
Proof.
have [_ H _] := sort_state_paired_invariant merge_engine.
have inv : sort_state_paired
             (mkState [:: 2] (Some "name"%string) (Some desc)) by [].
split; [exact: inv | exact: (H _ _ inv)].
Defined.

(** Sorting the user table leaves the caller's array as it was. *)
Lemma sortedData_permutation_witness :
  [/\ 0 < size [:: Examples.users],
      Store.deref [:: Examples.users] 0 = Examples.users
    & Store.deref
        (sortedData_ref merge_engine [:: Examples.users] 0
           Examples.user_columns (Some "name"%string) (Some asc)).1 0
      = Examples.users].
Proof.
have [_ _ _ H] :=
  sortedData_permutation merge_engine Examples.users Examples.user_columns
    (Some "name"%string) (Some asc).
have [_ H1] := H [:: Examples.users] 0 isT erefl.
split; [reflexivity | reflexivity | exact: (H1 0 isT)].
Defined.

(** * Further properties *)

(** ** The comparator *)

Lemma JS_lt_asym (a b : value) : JS.lt a b -> JS.lt b a = false.
Proof.
have str s t : String.ltb s t -> String.ltb t s = false.
  by rewrite /String.ltb (String.compare_antisym s t); case: String.compare.
have num x y : (x <? y)%Z -> (y <? x)%Z = false.
  by move=> /Z.ltb_lt ?; apply/Z.ltb_ge; lia.
rewrite /JS.lt.
case: a => [||[]|x||s|i|g]; case: b => [||[]|y||t|j|h] //=;
  try exact: str; try exact: num;
  by case: (StringToNumber _) => [?|] //; exact: num.
Qed.

Lemma normalize_swap (x y : value) :
  normalize y x = ((normalize x y).2, (normalize x y).1).
Proof. by case: x => [||?|?||?|?|?]; case: y => [||?|?||?|?|?]. Qed.

Lemma compareRows_opp columns k d (a b : Row) :
  compareRows columns k d b a = (- compareRows columns k d a b)%Z.
Proof.
rewrite /compareRows normalize_swap; case: (normalize _ _) => x y /=.
rewrite /JS.gt; case xy: (JS.lt x y); first by rewrite (JS_lt_asym xy); case: d.
by case: (JS.lt y x); case: d.
Qed.

Lemma compareRows_desc columns k (a b : Row) :
  compareRows columns k desc a b = (- compareRows columns k asc a b)%Z.
Proof.
rewrite /compareRows; case: (normalize _ _) => x y /=.
by case: (JS.lt x y) => //; case: (JS.gt x y).
Qed.

(** X1. The comparator is antisymmetric whatever the values: swapping the
    two rows negates the result, and so does swapping the direction; a row
    ties with itself; the result is -1, 0 or 1. *)
Theorem compareRows_mirror (columns : seq Column) (k : string)
  (d : SortDirection) (a b : Row) :
  [/\ compareRows columns k d b a = (- compareRows columns k d a b)%Z,
      compareRows columns k desc a b = (- compareRows columns k asc a b)%Z,
      compareRows columns k desc a b = compareRows columns k asc b a,
      compareRows columns k d a a = 0%Z
    & compareRows columns k d a b \in [:: (-1)%Z; 0%Z; 1%Z]].
Proof.
split; first exact: compareRows_opp.
- exact: compareRows_desc.
- by rewrite compareRows_desc -compareRows_opp.
- by have := compareRows_opp columns k d a a; lia.
rewrite /compareRows; case: (normalize _ _) => x y /=.
by case: (JS.lt x y); case: (JS.gt x y); case: d.
Qed.

Section Ordered.

Variable E : SortEngine.

(** X2. Sorting by a column of numbers, under a key that is not empty,
    puts the numbers in nondecreasing order when ascending and in
    nonincreasing order when descending. *)
Theorem sortedData_numbers_in_order (data : seq Row) (columns : seq Column)
  (k : string) (d : SortDirection) :
  k != EmptyString ->
  all (fun r => is_number (sortValue columns k r)) data ->
  sorted (fun x y => if d == asc then (x <=? y)%Z else (y <=? x)%Z)
    [seq number_key columns k r
    | r <- sortedData E data columns (Some k) (Some d)].
Proof.
move=> /negbTE nk nums; rewrite /sortedData nk sorted_map.
have cs := numbers_consistent d nums.
have := Array_sort_sorted E cs.
apply: (@sub_in_sorted _ (fun r => is_number (sortValue columns k r))).
  move=> a b; rewrite -!topredE /= /lte /number_key.
  case Ea: (sortValue columns k a) => [| | |x| | | |] // _.
  case Eb: (sortValue columns k b) => [| | |y| | | |] // _.
  rewrite (compareRows_numbers d Ea Eb) /directed !Z.leb_compare.
  rewrite (Z.compare_antisym x y).
  by case: (x ?= y)%Z; case: (d).
by rewrite (perm_all _ (Array_sort_perm E _ data)).
Qed.

(** X3. Sorting by a column of strings, under a key that is not empty, puts
    the lowercased strings in nondecreasing code-unit order when ascending
    and in nonincreasing order when descending. *)
Theorem sortedData_strings_in_order (data : seq Row) (columns : seq Column)
  (k : string) (d : SortDirection) :
  k != EmptyString ->
  all (fun r => is_string (sortValue columns k r)) data ->
  sorted (fun s t => if d == asc then String.leb s t else String.leb t s)
    [seq string_key columns k r
    | r <- sortedData E data columns (Some k) (Some d)].
Proof.
move=> /negbTE nk strs; rewrite /sortedData nk sorted_map.
have cs := strings_consistent d strs.
have := Array_sort_sorted E cs.
apply: (@sub_in_sorted _ (fun r => is_string (sortValue columns k r))).
  move=> a b; rewrite -!topredE /= /lte /string_key.
  case Ea: (sortValue columns k a) => [| | | | |s| |] // _.
  case Eb: (sortValue columns k b) => [| | | | |t| |] // _.
  rewrite (compareRows_strings d Ea Eb) /directed /String.leb.
  rewrite (String.compare_antisym (toLowerCase s) (toLowerCase t)).
  by case: (String.compare _ _); case: (d).
by rewrite (perm_all _ (Array_sort_perm E _ data)).
Qed.

End Ordered.

(** ** Reversal and columns without an order *)

Lemma consistent_opp (T : eqType) (cmp cmp' : comparator T) (s : seq T) :
  (forall a b, cmp' a b = (- cmp a b)%Z) ->
  consistent cmp' s = consistent cmp s.
Proof.
move=> opp.
have Et a b : tie cmp' a b = tie cmp a b.
  by rewrite /tie opp; apply/eqP/eqP; lia.
have Eb a b : before cmp' a b = after cmp a b.
  rewrite /before /after opp.
  by apply/idP/idP => /Z.ltb_lt ?; apply/Z.ltb_lt; lia.
have Ea a b : after cmp' a b = before cmp a b.
  rewrite /before /after opp.
  by apply/idP/idP => /Z.ltb_lt ?; apply/Z.ltb_lt; lia.
rewrite /consistent; apply: eq_all => a; rewrite Et; congr (_ && _).
apply: eq_all => b; rewrite !Et; congr (_ && _).
apply: eq_all => c; rewrite !Et !Eb !Ea; congr (_ && _).
by rewrite andbC.
Qed.

Lemma ties_consistent (T : eqType) (cmp : comparator T) (s : seq T) :
  {in s &, forall a b, cmp a b = 0%Z} -> consistent cmp s.
Proof.
move=> H.
apply: (@keyed_consistent _ unit (fun _ _ => Eq) (fun _ => tt) cmp asc) => //.
by case; case.
Qed.

Lemma unordered_tie columns k d (a b : Row) :
  unordered (sortValue columns k a) -> unordered (sortValue columns k b) ->
  compareRows columns k d a b = 0%Z.
Proof.
rewrite /compareRows.
by case: (sortValue columns k a) => [| | | | | |i|] //;
   case: (sortValue columns k b) => [| | | | | |j|].
Qed.

Section Reversal.

Variable E : SortEngine.

(** X4. On rows whose comparison values the model computes as the program
    does, when the comparator is consistent and no two different rows tie,
    a descending sort is the ascending sort read backwards. *)
Theorem sortedData_desc_is_rev_asc (data : seq Row) (columns : seq Column)
  (k : string) :
  k != EmptyString ->
  exact_data columns k data ->
  consistent (compareRows columns k asc) data ->
  {in data &, forall x y, compareRows columns k asc x y = 0%Z -> x = y} ->
  sortedData E data columns (Some k) (Some desc)
  = rev (sortedData E data columns (Some k) (Some asc)).
Proof.
move=> /negbTE nk _ csa noties; rewrite /sortedData nk.
set ca := compareRows columns k asc; set cd := compareRows columns k desc.
have csd : consistent cd data.
  by rewrite (consistent_opp _ (compareRows_desc columns k)).
have pD := Array_sort_perm E cd data; have pA := Array_sort_perm E ca data.
have csD : consistent cd (Array_sort E cd data).
  by rewrite (consistent_perm cd pD).
apply: (sorted_eq_in (lte_trans csD)).
- move=> a b; rewrite !(perm_mem pD) => ia ib /andP[ab ba].
  apply: noties => //; have /eqP := lte_tie csd ia ib ab ba.
  by rewrite /cd compareRows_desc -/ca; lia.
- exact: Array_sort_sorted.
- rewrite rev_sorted -(@eq_sorted _ (lte ca)).
    by move=> x y; rewrite /lte /cd compareRows_desc -compareRows_opp.
  exact: (Array_sort_sorted E csa).
- by rewrite perm_sym perm_rev (perm_trans pA) // perm_sym.
Qed.

(** X5. When every comparison value of the column is [undefined], [NaN] or
    a React element, all the rows tie and sorting leaves the data in the
    order it was given, whatever the direction. *)
Theorem sortedData_unordered_column (data : seq Row) (columns : seq Column)
  (k : string) (d : SortDirection) :
  all (fun r => unordered (sortValue columns k r)) data ->
  sortedData E data columns (Some k) (Some d) = data.
Proof.
move=> /allP un; rewrite /sortedData; case: ifP => // _.
have tied : {in data &, forall a b, compareRows columns k d a b = 0%Z}.
  by move=> a b /un ua /un ub; apply: unordered_tie.
have cs := ties_consistent tied.
have prm := Array_sort_perm E (compareRows columns k d) data.
case Ed: data => [|x data'] in prm *.
  by move: prm => /perm_size /eqP/nilP.
rewrite -Ed in prm *.
have ix : x \in data by rewrite Ed inE eqxx.
have := Array_sort_stable E cs ix.
have -> : [seq y <- data | tie (compareRows columns k d) x y] = data.
  by apply/all_filterP/allP => y iy; rewrite /tie tied.
move=> Hf; rewrite -[RHS]Hf; apply/esym/all_filterP/allP => y.
by rewrite (perm_mem prm) => iy; rewrite /tie tied.
Qed.

End Reversal.

(** ** Headers and cells *)

Lemma find_column_nth (columns : seq Column) (j : nat) :
  j < size columns -> uniq [seq key c | c <- columns] ->
  find_column columns (key (nth no_column columns j))
  = Some (nth no_column columns j).
Proof.
elim: columns j => [|col columns IH] [|j] //=; first by rewrite eqxx.
rewrite ltnS => lt_j /andP[nin uk]; rewrite (IH _ lt_j uk).
case: eqP => // Ek; case/negP: nin; rewrite Ek.
by rewrite -(nth_map _ EmptyString) // mem_nth // size_map.
Qed.

(** X6. With distinct column keys, the value a row is compared by when the
    table is sorted by a column is the content that column renders for the
    row: the accessor's result, or the field named by the key, which is
    [undefined] when the row has no such field and the key is not a name
    that objects inherit. *)
Theorem sortValue_is_cell_content (columns : seq Column) (j : nat)
  (row : Row) :
  j < size columns -> uniq [seq key c | c <- columns] ->
  let column := nth no_column columns j in
  sortValue columns (key column) row = renderCellContent row column
  /\ (accessor column = None ->
      key column \notin [seq kv.1 | kv <- row] ->
      key column \notin Object_prototype ->
      renderCellContent row column = VUndefined).
Proof.
move=> lt_j uk column; split.
  by rewrite /sortValue /renderCellContent find_column_nth //=; case: accessor.
rewrite /renderCellContent => -> own /negbTE inh.
elim: row own => [|[k' v] row IH] /=; first by rewrite inh.
rewrite inE negb_or eq_sym => /andP[ne nin].
by rewrite (negbTE ne) IH.
Qed.

(** X7. The sort icon follows the sort state.  A column that is not
    sortable has none.  For a sortable column, in a state where column and
    direction are set together, the up arrow shows exactly when the column
    is sorted ascending, the down arrow exactly when descending, the
    neutral icon exactly when another column or none is active; a click on
    its header moves its icon one step along neutral, up, down, neutral,
    and leaves the neutral icon on every sortable column with another
    key. *)
Theorem renderSortIcon_follows_state (st : State) (column : Column) :
  (sortable column <> Some true -> renderSortIcon st column = None)
  /\ (sortable column = Some true -> sort_state_paired st ->
      [/\ renderSortIcon st column = Some ChevronUp
          <-> sortColumn st = Some (key column)
              /\ sortDirection st = Some asc,
          renderSortIcon st column = Some ChevronDown
          <-> sortColumn st = Some (key column)
              /\ sortDirection st = Some desc,
          renderSortIcon st column = Some ChevronsUpDown
          <-> sortColumn st <> Some (key column),
          renderSortIcon (handleSort st column) column
          = Some (match renderSortIcon st column with
                  | Some ChevronsUpDown => ChevronUp
                  | Some ChevronUp => ChevronDown
                  | _ => ChevronsUpDown
                  end)
        & forall other, sortable other = Some true ->
            key other <> key column ->
            renderSortIcon (handleSort st column) other
            = Some ChevronsUpDown]).
Proof.
split=> [|so paired].
  by rewrite /renderSortIcon; case: (sortable column) => [[]|].
have icon st' c : sortable c = Some true ->
    renderSortIcon st' c
    = Some (if sortColumn st' == Some (key c)
            then (if sortDirection st' == Some asc then ChevronUp
                  else ChevronDown)
            else ChevronsUpDown).
  by rewrite /renderSortIcon => -> /=; case: (sortColumn st' == _).
have others other : sortable other = Some true ->
    key other <> key column ->
    renderSortIcon (handleSort st column) other = Some ChevronsUpDown.
  move=> soo ne; rewrite (icon _ _ soo) /handleSort so.
  have no : (Some (key column) == Some (key other)) = false.
    by apply/eqP => -[] /esym.
  case: (sortColumn st =P Some (key column)) => [Ec|_] /=; last first.
    by rewrite no.
  case: (sortDirection st == Some asc) => /=; first by rewrite Ec no.
  by case: (sortDirection st == Some desc) => //=; rewrite Ec no.
rewrite !(icon _ _ so); split=> //; move: paired;
  rewrite /handleSort ?so /sort_state_paired;
  case: st {others} => sel [k|] [[]|] //= _;
  rewrite ?eqxx /=;
  try (case: (Some k =P Some (key column)) => [[Ek]|ne] /=);
  rewrite ?Ek ?eqxx /=; by intuition congruence.
Qed.

(** ** Selection across header clicks and toggles *)

Section Selection.

Variable E : SortEngine.

Lemma run_selection_in_view p st evs :
  selection_in_view E p st -> all interaction evs ->
  all_offered E p st evs ->
  selection_in_view E (run E p st evs).1 (run E p st evs).2.
Proof.
elim: evs p st => [|ev evs IH] p st //= inv /andP[uev uevs] /andP[off].
have := step_selection_in_view inv uev off.
by case: (step E p st ev) => [[p' st'] out] /= inv'; apply: IH.
Qed.

Lemma run_data p st evs :
  all interaction evs -> data (run E p st evs).1 = data p.
Proof.
elim: evs p st => [|ev evs IH] p st //= /andP[uev uevs].
have: data (step E p st ev).1.1 = data p.
  by case: ev uev => [j|i c|[]|rows] //= _; case: ifP.
by case: (step E p st ev) => [[p' st'] out] /= <-; apply: IH.
Qed.

(** X8. A click on a header leaves the props and the selected positions as
    they were and does not call [onRowSelect]; the select-all flags and the
    line under the table read the same after it as before. *)
Theorem header_click_keeps_selection (p : Props) (st : State) (j : nat) :
  let: (p', st', out) := step E p st (HeaderClick j) in
  [/\ p' = p /\ out = None,
      selectedRows st' = selectedRows st,
      isAllSelected (view E p st') st' = isAllSelected (view E p st) st,
      isIndeterminate (view E p st') st'
      = isIndeterminate (view E p st) st
    & selection_summary (selectable p) (view E p st') st'
      = selection_summary (selectable p) (view E p st) st].
Proof.
rewrite /=; case: ifP => _ //.
rewrite /isAllSelected /isIndeterminate /selection_summary.
by rewrite !size_view handleSort_selectedRows.
Qed.

(** X9. Along any run from the initial state of header clicks and
    checkbox changes that the rendered table offers, the selection holds no
    position twice and no more positions than the view has rows; when it is
    not empty exactly one of [isAllSelected] and [isIndeterminate] holds;
    and the line under the table, when shown, reads n of m with
    0 < n <= m. *)
Theorem selection_count_bounded (p : Props) (evs : seq Event) :
  all interaction evs -> all_offered E p initial evs ->
  let p' := (run E p initial evs).1 in
  let st := (run E p initial evs).2 in
  let rows := view E p' st in
  [/\ uniq (selectedRows st),
      NumSet.size (selectedRows st) <= size rows,
      (selectedRows st != NumSet.empty)
      = isAllSelected rows st (+) isIndeterminate rows st
    & forall n m,
        selection_summary (selectable p') rows st = Some (n, m) ->
        0 < n <= m].
Proof.
move=> uevs off p' st rows.
have us : uniq (selectedRows st) by apply: run_uniq.
have inv : selection_in_view E p' st.
  exact: (@run_selection_in_view p initial evs).
have le : NumSet.size (selectedRows st) <= size rows.
  rewrite /NumSet.size -(size_iota 0 (size rows)).
  apply: uniq_leq_size => // i /(allP inv).
  by rewrite mem_iota add0n.
split=> //.
  rewrite /isAllSelected /isIndeterminate.
  have -> : (selectedRows st != NumSet.empty)
            = (0 < NumSet.size (selectedRows st)).
    by case: (selectedRows st).
  case: (0 < _) => //=; move: le; rewrite leq_eqVlt.
  by case: eqP => [->|_] /=; rewrite ?ltnn // => ->.
move=> n m; rewrite /selection_summary.
by case: ifP => // /andP[_ pos] [<- <-]; rewrite pos.
Qed.

End Selection.

(** X10. When the selection holds no position twice and only positions of
    the view, [isAllSelected] says that the view has rows and every one of
    them is selected, and [isIndeterminate] that some position is selected
    and some row is not. *)
Theorem isAllSelected_every_row (rows : seq Row) (st : State) :
  uniq (selectedRows st) ->
  all (fun i => i < size rows) (selectedRows st) ->
  isAllSelected rows st
  = (0 < size rows)
    && all (NumSet.has (selectedRows st)) (iota 0 (size rows))
  /\ isIndeterminate rows st
     = (selectedRows st != NumSet.empty)
       && ~~ all (NumSet.has (selectedRows st)) (iota 0 (size rows)).
Proof.
move=> us inv.
have sub : {subset selectedRows st <= iota 0 (size rows)}.
  by move=> i /(allP inv); rewrite mem_iota add0n.
have le : size (selectedRows st) <= size rows.
  by rewrite -(size_iota 0 (size rows)); apply: uniq_leq_size.
have full : all (NumSet.has (selectedRows st)) (iota 0 (size rows))
            = (size (selectedRows st) == size rows).
  apply/idP/eqP => [/allP every|sz].
    apply/eqP; rewrite eqn_leq le /= -{1}(size_iota 0 (size rows)).
    by apply: uniq_leq_size (iota_uniq _ _) _ => i /every.
  have le' : size (iota 0 (size rows)) <= size (selectedRows st).
    by rewrite size_iota sz.
  have [_ eqi] := uniq_min_size us sub le'.
  by apply/allP => i; rewrite /NumSet.has eqi.
have ne : (selectedRows st != NumSet.empty) = (0 < size (selectedRows st)).
  by case: (selectedRows st).
rewrite /isAllSelected /isIndeterminate /NumSet.size full ne; split.
  by case: eqP => [->|]; rewrite ?andbT ?andbF.
by rewrite [_ < size rows]ltn_neqAle le andbT.
Qed.

(** X11. Ticking a row that is not selected and unticking it again gives
    back the state there was; ticking a selected row, or unticking one that
    is not selected, changes nothing; and ticking a row that is not
    selected hands the callback the rows it was handed before followed by
    the new one. *)
Theorem handleRowSelect_round_trip (rows : seq Row) (st : State)
  (index : nat) :
  (~~ NumSet.has (selectedRows st) index ->
   [/\ (handleRowSelect rows (handleRowSelect rows st index true).1
          index false).1 = st,
       (handleRowSelect rows st index false).1 = st
     & (handleRowSelect rows st index true).2
       = [seq lookup rows i | i <- NumSet.to_array (selectedRows st)]
         ++ [:: lookup rows index]])
  /\ (NumSet.has (selectedRows st) index ->
      (handleRowSelect rows st index true).1 = st).
Proof.
case: st => sel sc sd; rewrite /handleRowSelect /NumSet.has /=.
have del : index \notin sel -> NumSet.delete sel index = sel.
  move=> nin; apply/all_filterP/allP => i ii.
  by apply: contraNneq nin => <-.
split=> [nin|ii]; last by rewrite /NumSet.add ii.
rewrite /NumSet.add (negbTE nin) del //; split=> //.
  rewrite /NumSet.delete filter_rcons eqxx /=.
  by rewrite -/(NumSet.delete sel index) del.
by rewrite /NumSet.to_array map_rcons -cats1.
Qed.

(** X12. Selecting all and then unticking the row at a position of the view
    leaves every other position selected, in order; the callback receives
    the rows of the view but that one; [isAllSelected] is off, and
    [isIndeterminate] is on when the view has more than one row. *)
Theorem select_all_but_one (rows : seq Row) (st : State) (index : nat) :
  index < size rows ->
  let st1 := (handleSelectAll rows st true).1 in
  let: (st2, out) := handleRowSelect rows st1 index false in
  [/\ selectedRows st2
      = iota 0 index ++ iota index.+1 (size rows - index.+1),
      out = [seq Some r | r <- take index rows ++ drop index.+1 rows],
      isAllSelected rows st2 = false
    & isIndeterminate rows st2 = (1 < size rows)].
Proof.
move=> lt_i /=; rewrite of_array_iota.
have split_iota : iota 0 (size rows)
    = iota 0 index ++ index :: iota index.+1 (size rows - index.+1).
  rewrite -{1}(subnKC lt_i) iotaD add0n -{1}[index.+1]addn1 iotaD add0n.
  by rewrite -catA.
have del : NumSet.delete (iota 0 (size rows)) index
    = iota 0 index ++ iota index.+1 (size rows - index.+1).
  rewrite /NumSet.delete split_iota filter_cat /= eqxx /=.
  congr (_ ++ _); apply/all_filterP/allP => i; rewrite mem_iota.
    by rewrite add0n => /andP[_]; rewrite ltn_neqAle => /andP[].
  by case/andP; rewrite ltn_neqAle eq_sym => /andP[].
have sz : size (iota 0 index ++ iota index.+1 (size rows - index.+1))
          = (size rows).-1.
  rewrite size_cat !size_iota -subn1 -plusE -!minusE.
  by move/ltP: lt_i; lia.
rewrite del /isAllSelected /isIndeterminate /NumSet.size sz; split=> //.
- rewrite /NumSet.to_array map_cat /lookup.
  rewrite (map_nth_iota0 None); first by rewrite size_map ltnW.
  rewrite (map_nth_iota None); first by rewrite size_map.
  rewrite map_cat -map_take -map_drop; congr (_ ++ _).
  by apply: take_oversize; rewrite size_map size_drop.
- by case: (size rows) lt_i => // n _; rewrite /= eqn_leq ltnn andbF andbF.
- by case: (size rows) lt_i => // n _; rewrite /= ltnS leqnn andbT.
Qed.

(** ** The input field *)

Section InputFieldFacts.

Import InputField.

Implicit Types (p : InputField.Props) (st : InputField.State).

(** X13. Of the spinner, the clear button and the visibility button at
    most one is rendered, and room is made on the right whenever one is;
    the clear button is there only for an enabled field that shows some
    text, and the field is disabled whenever the spinner shows. *)
Theorem adornments_exclusive p st (generated : string) :
  let v := render p st generated in
  [/\ (loader v : nat) + clear_button v + isSome (toggle_button v) <= 1,
      [|| loader v, clear_button v | isSome (toggle_button v)]
      ==> padded_right v,
      clear_button v
      ==> ~~ input_disabled v && (input_value v != EmptyString)
    & loader v ==> input_disabled v].
Proof.
rewrite /render /=.
case: (loading p); case: (showClearButton p); case: (disabled p);
  case: (type p == password); case: (displayValue p st != EmptyString);
  by [].
Qed.

Lemma handleClear_state p st :
  (handleClear p st).1
  = if isControlled p then st else mkState (showPassword st) EmptyString.
Proof.
rewrite /handleClear /handleChange.
by case: (forwarded_ref p); case: (displayValue p st != EmptyString);
   case: (isControlled p).
Qed.

Lemma handleClear_calls p st :
  calls (handleClear p st).2
  = nseq (forwarded_ref p && (displayValue p st != EmptyString)).+1
      EmptyString.
Proof.
rewrite /handleClear /handleChange.
by case: (forwarded_ref p); case: (displayValue p st != EmptyString).
Qed.

Lemma run_showPassword p st evs :
  [|| showClearButton p, loading p, disabled p | type p != password] ->
  all_offered p st evs ->
  showPassword (run p st evs) = showPassword st.
Proof.
move=> locked; elim: evs st => [|ev evs IH] st //= /andP[off offs].
rewrite (IH _ offs) {IH offs}; case: ev off => [v||] off.
- by rewrite /= /handleChange; case: ifP.
- by rewrite [step _ _ _]/= handleClear_state; case: ifP.
move: off; rewrite /offered /render /=; move: locked.
by case: (loading p); case: (showClearButton p); case: (disabled p);
   case: (type p == password).
Qed.

(** X14. The input shows its text in clear only for a password field
    whose visibility button was pressed.  When the field has a clear
    button, is loading, is disabled or is not a password field, no run of
    events the rendered field offers changes the type of the input: it
    stays the [type] prop. *)
Theorem password_stays_hidden p (evs : seq Event) (generated : string) :
  [|| showClearButton p, loading p, disabled p | type p != password] ->
  all_offered p initial evs ->
  showPassword (run p initial evs) = false
  /\ input_type (render p (run p initial evs) generated) = type p.
Proof.
move=> locked off; have sp := run_showPassword locked off.
by split=> //; rewrite /render /= sp /= andbF.
Qed.

(** X15. An uncontrolled field shows what was typed last: an edit makes it
    show the new text and reports that text through [onChange], once; the
    clear button empties it, and the clear button is gone afterwards; a
    press of the clear button calls [onChange] with the empty text, once
    when no ref object holds the input and twice when one does; the
    visibility button changes neither the text nor calls [onChange]. *)
Theorem uncontrolled_shows_last_edit p st (v : string) :
  value p = None ->
  [/\ displayValue p (step p st (Edit v)).1 = v
      /\ (step p st (Edit v)).2 = [:: OnChange v],
      displayValue p (step p st ClickClear).1 = EmptyString
      /\ (offered p st ClickClear ->
          calls (step p st ClickClear).2
          = nseq (forwarded_ref p).+1 EmptyString),
      forall generated,
        clear_button (render p (step p st ClickClear).1 generated) = false
    & displayValue p (step p st ClickToggle).1 = displayValue p st
      /\ (step p st ClickToggle).2 = [::]].
Proof.
move=> unc; have nctl : isControlled p = false by rewrite /isControlled unc.
have shown st' : displayValue p st' = internalValue st'.
  by rewrite /displayValue unc.
rewrite /step handleClear_state handleClear_calls nctl !shown /=.
split=> //; first by rewrite nctl.
  split=> //; rewrite /offered /render /= shown.
  by case/and4P=> _ _ -> _; rewrite andbT.
by move=> generated; rewrite /render /= shown /= !andbF.
Qed.

Lemma run_controlled p st evs (v0 : string) :
  value p = Some v0 -> run p st evs = mkState (showPassword (run p st evs))
                                        (internalValue st).
Proof.
move=> ctl; elim: evs st => [|ev evs IH] st /=; first by case: st.
rewrite IH; case: ev => [v||] //.
- by rewrite /= /handleChange /isControlled ctl.
- by rewrite [step _ _ _]/= handleClear_state /isControlled ctl.
Qed.

(** X16. A controlled field shows the [value] prop whatever happens to it:
    after any events it displays that value and its own text cell still
    holds the empty string, while each edit is reported through
    [onChange] and each press of the clear button calls [onChange] with
    the empty text, once when no ref object holds the input and twice when
    one does. *)
Theorem controlled_shows_prop p (evs : seq Event) (v0 : string) :
  value p = Some v0 ->
  [/\ displayValue p (run p initial evs) = v0,
      internalValue (run p initial evs) = EmptyString,
      forall st v, (step p st (Edit v)).2 = [:: OnChange v]
    & forall st, offered p st ClickClear ->
        calls (step p st ClickClear).2
        = nseq (forwarded_ref p).+1 EmptyString].
Proof.
move=> ctl; split.
- by rewrite /displayValue ctl.
- by rewrite (run_controlled _ _ ctl).
- by [].
- move=> st; rewrite /step handleClear_calls /offered /render /=.
  by case/and4P=> _ _ -> _; rewrite andbT.
Qed.

(** X17. At a field of the demo page, whose parent stores what [onChange]
    reports and passes it back as [value], an edit makes the field show
    the new text and the clear button makes it show the empty text, after
    which the clear button is gone. *)
Theorem echoed_field_follows_edits p (textValue : string) st (v : string)
  (generated : string) :
  let edited := echo_step p textValue st (Edit v) in
  let cleared := echo_step p textValue st ClickClear in
  [/\ edited.2 = v,
      displayValue (with_value p edited.2) edited.1 = v,
      cleared.2 = EmptyString,
      displayValue (with_value p cleared.2) cleared.1 = EmptyString
    & clear_button (render (with_value p cleared.2) cleared.1 generated)
      = false].
Proof.
have cleared : (echo_step p textValue st ClickClear).2 = EmptyString.
  rewrite /echo_step /= /handleClear /handleChange /=.
  by case: (forwarded_ref p); case: (textValue != EmptyString).
rewrite /= cleared; split=> //.
by rewrite /render /= !andbF.
Qed.

(** X18. The input names a description exactly when the description
    paragraph is rendered, and then by the paragraph's own identifier; the
    paragraph shows the error message when there is one and the helper text
    otherwise, in the error style exactly when the input is marked
    invalid; and the label, when rendered, points at the input. *)
Theorem description_matches_aria p st (generated : string) :
  let v := render p st generated in
  [/\ isSome (aria_describedby v) = isSome (description v),
      forall i t err, description v = Some (i, t, err) ->
        [/\ aria_describedby v = Some i,
            i = (input_id v ++ "-description")%string,
            err = aria_invalid v
          & t != EmptyString
            /\ Some t = (if truthy (errorMessage p) then errorMessage p
                         else helperText p)],
      aria_invalid v = invalid p || truthy (errorMessage p)
    & forall i l, label_for v = Some (i, l) -> i = input_id v].
Proof.
rewrite /render /= /isError.
have text : truthy (or_else (helperText p) (errorMessage p)) ->
    exists2 t, or_else (errorMessage p) (helperText p) = Some t
             & t != EmptyString
               /\ Some t = (if truthy (errorMessage p) then errorMessage p
                            else helperText p).
  rewrite /or_else; case ee: (truthy (errorMessage p)).
    by case: (errorMessage p) ee => [e|] //= ne _; exists e.
  case he: (truthy (helperText p)); last by rewrite ee.
  by case: (helperText p) he => [h|] //= nh _; exists h.
split=> //.
- case sh: (truthy _) => //=.
  by have [t -> _] := text sh.
- move=> i t err; case sh: (truthy _) => //.
  by have [t' -> [ne Et]] := text sh; move=> [<- <- <-].
- by move=> i l; case: ifP => // _; case: (label p) => //= l' [<-].
Qed.

End InputFieldFacts.

(** ** The further properties on the samples *)

(** The stocks 1, 4, 2, 3 come out as 4, 3, 2, 1 when descending. *)
Lemma sortedData_numbers_in_order_witness :
  [/\ "stock"%string != EmptyString,
      all (fun r => is_number (sortValue Examples.product_columns "stock" r))
        Samples.stocked
    & sorted (fun x y => (y <=? x)%Z)
        [seq number_key Examples.product_columns "stock" r
        | r <- sortedData merge_engine Samples.stocked
                 Examples.product_columns (Some "stock"%string)
                 (Some desc)]].
Proof.
have nk : "stock"%string != EmptyString by [].
have nums : all (fun r => is_number
                   (sortValue Examples.product_columns "stock" r))
              Samples.stocked by [].
split; [exact: nk | exact: nums |].
exact: (sortedData_numbers_in_order merge_engine desc nk nums).
Defined.

(** The user names come out in order of their lowercased text. *)
Lemma sortedData_strings_in_order_witness :
  [/\ "name"%string != EmptyString,
      all (fun r => is_string (sortValue Examples.user_columns "name" r))
        Examples.users
    & sorted (fun s t => String.leb s t)
        [seq string_key Examples.user_columns "name" r
        | r <- sortedData merge_engine Examples.users
                 Examples.user_columns (Some "name"%string) (Some asc)]].
Proof.
have nk : "name"%string != EmptyString by [].
have strs : all (fun r => is_string
                   (sortValue Examples.user_columns "name" r))
              Examples.users by [].
split; [exact: nk | exact: strs |].
exact: (sortedData_strings_in_order merge_engine asc nk strs).
Defined.

(** The stocks are all different: descending is ascending backwards. *)
Lemma sortedData_desc_is_rev_asc_witness :
  [/\ "stock"%string != EmptyString,
      exact_data Examples.product_columns "stock" Samples.stocked,
      consistent (compareRows Examples.product_columns "stock" asc)
        Samples.stocked,
      all (fun x =>
             all (fun y =>
                    (compareRows Examples.product_columns "stock" asc x y
                     == 0%Z) ==> (x == y)) Samples.stocked)
        Samples.stocked
    & sortedData merge_engine Samples.stocked Examples.product_columns
        (Some "stock"%string) (Some desc)
      = rev (sortedData merge_engine Samples.stocked
               Examples.product_columns (Some "stock"%string) (Some asc))].
Proof.
have nk : "stock"%string != EmptyString by [].
have cs : consistent (compareRows Examples.product_columns "stock" asc)
            Samples.stocked by vm_compute.
have noties : all (fun x =>
                all (fun y =>
                  (compareRows Examples.product_columns "stock" asc x y
                   == 0%Z) ==> (x == y)) Samples.stocked)
                Samples.stocked by vm_compute.
have ex : exact_data Examples.product_columns "stock" Samples.stocked.
  by vm_compute.
split; [exact: nk | exact: ex | exact: cs | exact: noties |].
apply: (sortedData_desc_is_rev_asc merge_engine nk ex cs) => x y ix iy.
move=> /eqP xy.
by apply/eqP; apply: (implyP (allP (allP noties x ix) y iy)).
Defined.

(** Sorting the users by the badge column leaves them as they were. *)
Lemma sortedData_unordered_column_witness :
  all (fun r => unordered (sortValue Samples.badge_columns "status" r))
    Examples.users
  /\ sortedData merge_engine Examples.users Samples.badge_columns
       (Some "status"%string) (Some desc) = Examples.users.
Proof.
have un : all (fun r => unordered
                 (sortValue Samples.badge_columns "status" r))
            Examples.users by [].
split; [exact: un |].
exact: (sortedData_unordered_column merge_engine desc un).
Defined.

(** The name column of the user table. *)
Lemma sortValue_is_cell_content_witness :
  [/\ 1 < size Examples.user_columns,
      uniq [seq key c | c <- Examples.user_columns]
    & sortValue Examples.user_columns "name" (Examples.user 1 "bob")
      = renderCellContent (Examples.user 1 "bob")
          (Examples.plain_column "name")].
Proof.
have lt1 : 1 < size Examples.user_columns by [].
have uk : uniq [seq key c | c <- Examples.user_columns] by [].
have [H _] :=
  sortValue_is_cell_content (Examples.user 1 "bob") lt1 uk.
split; [exact: lt1 | exact: uk | exact: H].
Defined.

(** The name header after one click from the initial state. *)
Lemma renderSortIcon_follows_state_witness :
  [/\ sortable (Examples.plain_column "name") = Some true,
      sort_state_paired initial
    & renderSortIcon
        (handleSort initial (Examples.plain_column "name"))
        (Examples.plain_column "name")
      = Some ChevronUp].
Proof.
have so : sortable (Examples.plain_column "name") = Some true by [].
have pr : sort_state_paired initial by [].
have [_ H] :=
  renderSortIcon_follows_state initial (Examples.plain_column "name").
have [_ _ _ H4 _] := H so pr.
split; [exact: so | exact: pr | exact: H4].
Defined.

(** The sample session ends with three of four rows selected. *)
Lemma selection_count_bounded_witness :
  [/\ all interaction Examples.session,
      all_offered merge_engine Examples.user_props initial Examples.session
    & NumSet.size
        (selectedRows
           (run merge_engine Examples.user_props initial
              Examples.session).2)
      <= size
           (view merge_engine
              (run merge_engine Examples.user_props initial
                 Examples.session).1
              (run merge_engine Examples.user_props initial
                 Examples.session).2)].
Proof.
have uev : all interaction Examples.session by [].
have off : all_offered merge_engine Examples.user_props initial
             Examples.session by vm_compute.
have [_ H _ _] := selection_count_bounded uev off.
split; [exact: uev | exact: off | exact: H].
Defined.

(** All four users ticked one by one, in any order. *)
Lemma isAllSelected_every_row_witness :
  [/\ uniq (selectedRows (mkState [:: 3; 0; 1; 2] None None)),
      all (fun i => i < size Examples.users)
        (selectedRows (mkState [:: 3; 0; 1; 2] None None))
    & isAllSelected Examples.users (mkState [:: 3; 0; 1; 2] None None)
      = (0 < size Examples.users)
        && all (NumSet.has [:: 3; 0; 1; 2]) (iota 0 (size Examples.users))].
Proof.
have us : uniq (selectedRows (mkState [:: 3; 0; 1; 2] None None)) by [].
have inv : all (fun i => i < size Examples.users)
             (selectedRows (mkState [:: 3; 0; 1; 2] None None)) by [].
have [H _] := isAllSelected_every_row us inv.
split; [exact: us | exact: inv | exact: H].
Defined.

(** Ticking and unticking the third row. *)
Lemma handleRowSelect_round_trip_witness :
  ~~ NumSet.has (selectedRows (mkState [:: 3] None None)) 2
  /\ (handleRowSelect Examples.users
        (handleRowSelect Examples.users (mkState [:: 3] None None) 2
           true).1 2 false).1 = mkState [:: 3] None None.
Proof.
have nin : ~~ NumSet.has (selectedRows (mkState [:: 3] None None)) 2 by [].
have [H _] :=
  handleRowSelect_round_trip Examples.users (mkState [:: 3] None None) 2.
have [H1 _ _] := H nin.
split; [exact: nin | exact: H1].
Defined.

(** All users but the second. *)
Lemma select_all_but_one_witness :
  1 < size Examples.users
  /\ (handleRowSelect Examples.users
        (handleSelectAll Examples.users initial true).1 1 false).2
     = [:: Some (Examples.user 1 "bob"); Some (Examples.user 3 "BOB");
           Some (Examples.user 4 "alice")].
Proof.
have lt1 : 1 < size Examples.users by [].
have [_ H _ _] := select_all_but_one initial lt1.
split; [exact: lt1 | exact: H].
Defined.

Section InputFieldSamples.

Import InputField.

(** A password field with a clear button never shows its text. *)
Lemma password_stays_hidden_witness :
  [/\ [|| InputField.showClearButton Samples.password_field,
          InputField.loading Samples.password_field,
          InputField.disabled Samples.password_field
        | InputField.type Samples.password_field != InputField.password],
      InputField.all_offered Samples.password_field InputField.initial
        Samples.typing
    & InputField.input_type
        (InputField.render Samples.password_field
           (InputField.run Samples.password_field InputField.initial
              Samples.typing) "input-0-0")
      = InputField.password].
Proof.
have locked :
  [|| InputField.showClearButton Samples.password_field,
      InputField.loading Samples.password_field,
      InputField.disabled Samples.password_field
    | InputField.type Samples.password_field != InputField.password] by [].
have off : InputField.all_offered Samples.password_field
             InputField.initial Samples.typing by [].
have [_ H] := password_stays_hidden "input-0-0" locked off.
split; [exact: locked | exact: off | exact: H].
Defined.

(** Typing into the uncontrolled name field. *)
Lemma uncontrolled_shows_last_edit_witness :
  [/\ InputField.value Samples.ref_field = None,
      InputField.displayValue Samples.ref_field
        (InputField.step Samples.ref_field InputField.initial
           (InputField.Edit "Ada")).1 = "Ada"%string,
      InputField.offered Samples.ref_field
        (InputField.mkState false "Ada") InputField.ClickClear
    & InputField.calls
        (InputField.step Samples.ref_field
           (InputField.mkState false "Ada") InputField.ClickClear).2
      = [:: EmptyString; EmptyString]].
Proof.
have unc : InputField.value Samples.ref_field = None by [].
have off : InputField.offered Samples.ref_field
             (InputField.mkState false "Ada") InputField.ClickClear by [].
have [[H _] _ _ _] :=
  uncontrolled_shows_last_edit InputField.initial "Ada" unc.
have [_ [_ H2] _ _] :=
  uncontrolled_shows_last_edit (InputField.mkState false "Ada") "Ada" unc.
split; [exact: unc | exact: H | exact: off | exact: (H2 off)].
Defined.

(** The same field under a parent that fixes its value. *)
Lemma controlled_shows_prop_witness :
  [/\ InputField.value (InputField.with_value Samples.ref_field "fixed")
      = Some "fixed"%string,
      InputField.displayValue
        (InputField.with_value Samples.ref_field "fixed")
        (InputField.run (InputField.with_value Samples.ref_field "fixed")
           InputField.initial Samples.typing) = "fixed"%string,
      InputField.offered (InputField.with_value Samples.ref_field "fixed")
        InputField.initial InputField.ClickClear
    & InputField.calls
        (InputField.step (InputField.with_value Samples.ref_field "fixed")
           InputField.initial InputField.ClickClear).2
      = [:: EmptyString; EmptyString]].
Proof.
have ctl : InputField.value
             (InputField.with_value Samples.ref_field "fixed")
           = Some "fixed"%string by [].
have off : InputField.offered
             (InputField.with_value Samples.ref_field "fixed")
             InputField.initial InputField.ClickClear by [].
have [H _ _ H2] := controlled_shows_prop Samples.typing ctl.
split; [exact: ctl | exact: H | exact: off | exact: (H2 _ off)].
Defined.

(** The name field shows its error message, under the input's name. *)
Lemma description_matches_aria_witness :
  InputField.description
    (InputField.render Samples.name_field InputField.initial "input-0-0")
  = Some ("name-description"%string, "Required"%string, true)
  /\ InputField.aria_describedby
       (InputField.render Samples.name_field InputField.initial "input-0-0")
     = Some "name-description"%string.
Proof.
have Ed : InputField.description
            (InputField.render Samples.name_field InputField.initial
               "input-0-0")
          = Some ("name-description"%string, "Required"%string, true)
  by [].
have [_ H _ _] :=
  description_matches_aria Samples.name_field InputField.initial
    "input-0-0".
have [H1 _ _ _] := H _ _ _ Ed.
split; [exact: Ed | exact: H1].
Defined.

End InputFieldSamples.
